(** * gym-dummy: the episodic interaction protocol of the two test environments

    A shallow embedding of [gym_dummy/envs/fobs/__init__.py]
    ([GreaterThanZeroEnv], the sign-detection environment) and of
    [gym_dummy/envs/pobs/__init__.py] ([TwoInARowEnv], the consecutive-match
    environment), followed by the properties of their [step]/[reset] state
    machine, of their reward functions and of the [q_values] report.

    Conventions of the embedding:
    - a Python [int] is a [Z]; the samples of [np.random.randn()] are finite
      floats, which are compared with zero only, and are represented by the
      rational number they denote ([Q]);
    - a method of the environment is a computation in the monad [M], which
      threads the attributes of [self] and may raise; the attributes keep
      whatever was written to them before an exception is raised, as they do
      in Python;
    - the random sources are inputs: every call that samples takes the sample
      (or the raw index drawn by [random.choice]) as an argument. *)

From Stdlib Require Import ZArith QArith String Ascii.
From stdpp Require Import base tactics option list numbers strings pretty gmap.

Local Open Scope Z_scope.

(** ** Python primitives *)

Module Py.

(** The exceptions the two modules can raise. *)
Inductive exn : Type :=
| RuntimeError (msg : string)
| ValueError (msg : string) (arg : Z)
| IndexError.

Definition result (A : Type) : Type := (exn + A)%type.

(** A method body: reads and writes the state [S], returns or raises. *)
Definition M (S A : Type) : Type := S → result A * S.

Definition ret {S A} (x : A) : M S A := λ s, (inr x, s).

Definition bind {S A B} (m : M S A) (k : A → M S B) : M S B :=
  λ s, match m s with
       | (inr x, s') => k x s'
       | (inl e, s') => (inl e, s')
       end.

Definition raise {S A} (e : exn) : M S A := λ s, (inl e, s).

Definition gets {S A} (f : S → A) : M S A := λ s, (inr (f s), s).

Definition modify {S} (f : S → S) : M S unit := λ s, (inr tt, f s).

(** An expression that may raise, evaluated inside a method: [lift] when
    it does not mention [self], [eval] when it reads it. *)
Definition lift {S A} (r : result A) : M S A := λ s, (r, s).
Definition eval {S A} (f : S → result A) : M S A := λ s, (f s, s).

(** [l[i]] resolves a possibly negative index: [Some] position within
    range, [None] where Python raises [IndexError]. *)
Definition index {A} (l : list A) (i : Z) : option nat :=
  let j := if bool_decide (i < 0) then i + Z.of_nat (length l) else i in
  if bool_decide (0 ≤ j < Z.of_nat (length l)) then Some (Z.to_nat j) else None.

Definition getitem {A} (l : list A) (i : Z) : result A :=
  match index l i ≫= (l !!.) with
  | Some x => inr x
  | None => inl IndexError
  end.

(** [l[-2:]]: the last two elements, or all of [l] when it is shorter. *)
Definition last_two {A} (l : list A) : list A := drop (length l - 2)%nat l.

(** [random.choice(seq)] is [seq[_randbelow(len(seq))]]; [r] is the raw
    random number the index is drawn from. *)
Definition random_choice {A} (seq : list A) (r : nat) : result A :=
  getitem seq (Z.of_nat (r mod length seq)).

(** [x > y] on finite floats. *)
Definition gt (x y : Q) : bool :=
  match (x ?= y)%Q with Gt => true | _ => false end.

(** [sep.join(l)] and the newline character. *)
Definition join (sep : string) (l : list string) : string := String.concat sep l.
Definition nl : string := String (ascii_of_nat 10) EmptyString.

(** [enumerate(l)] *)
Definition enumerate {A} (l : list A) : list (Z * A) :=
  zip (seqZ 0 (Z.of_nat (length l))) l.

End Py.

Import Py.

#[global] Instance M_ret {S} : MRet (M S) := @ret S.
#[global] Instance M_bind {S} : MBind (M S) := λ A B k m, bind m k.

(** ** The attributes of an environment instance

    [ob] is the type of an observation: both classes keep the same
    attributes and differ in what they store in [obs_episode_memory]. *)

Record Env (ob : Type) : Type := mkEnv {
  max_steps_per_episode : Z;
  curr_episode : Z;
  obs_episode_memory : list (list ob);
  action_episode_memory : list (list Z);
  curr_step : Z
}.

Arguments mkEnv {ob}.
Arguments max_steps_per_episode {ob}.
Arguments curr_episode {ob}.
Arguments obs_episode_memory {ob}.
Arguments action_episode_memory {ob}.
Arguments curr_step {ob}.

Definition set_curr_step {ob} (f : Z → Z) (s : Env ob) : Env ob :=
  mkEnv (max_steps_per_episode s) (curr_episode s) (obs_episode_memory s)
        (action_episode_memory s) (f (curr_step s)).

Definition set_curr_episode {ob} (f : Z → Z) (s : Env ob) : Env ob :=
  mkEnv (max_steps_per_episode s) (f (curr_episode s)) (obs_episode_memory s)
        (action_episode_memory s) (curr_step s).

Definition set_obs_episode_memory {ob} (f : list (list ob) → list (list ob))
    (s : Env ob) : Env ob :=
  mkEnv (max_steps_per_episode s) (curr_episode s) (f (obs_episode_memory s))
        (action_episode_memory s) (curr_step s).

Definition set_action_episode_memory {ob} (f : list (list Z) → list (list Z))
    (s : Env ob) : Env ob :=
  mkEnv (max_steps_per_episode s) (curr_episode s) (obs_episode_memory s)
        (f (action_episode_memory s)) (curr_step s).

(** [__init__(self, max_steps_per_episode)]. *)
Definition init {ob} (max_steps : Z) : Env ob :=
  mkEnv max_steps (-1) [] [] 0.

(** The two names the specification gives to the exceptions of [step]. *)
Definition EpisodeExhausted : exn := RuntimeError "Episode is done".
Definition InvalidAction (action : Z) : exn := ValueError "Invalid action " action.

(** The [info] dictionary returned by [step]. *)
Definition info : Type := gmap string Z.

(** ** The episode controller

    [step], [reset], [_take_action] and [_step_reset] read the same in the
    two classes; they are written once, over the two methods in which the
    classes differ ([_get_reward], [_get_obs]) and over the expression that
    [reset] evaluates for the initial observation. *)

Section Controller.
Context {ob rand : Type}.
Variable _get_reward : M (Env ob) Z.
Variable _get_obs : rand → M (Env ob) ob.
Variable _initial_obs : rand → M (Env ob) ob.

(** [self.action_episode_memory[self.curr_episode].append(action)] *)
Definition append_action (action : Z) : M (Env ob) unit :=
  λ s, match index (action_episode_memory s) (curr_episode s) with
       | Some n => (inr tt, set_action_episode_memory (alter (.++ [action]) n) s)
       | None => (inl IndexError, s)
       end.

(** [self.obs_episode_memory[self.curr_episode].append(ob)] *)
Definition append_obs (o : ob) : M (Env ob) unit :=
  λ s, match index (obs_episode_memory s) (curr_episode s) with
       | Some n => (inr tt, set_obs_episode_memory (alter (.++ [o]) n) s)
       | None => (inl IndexError, s)
       end.

Definition _take_action (action : Z) : M (Env ob) unit :=
  if bool_decide (action ∉ [0; 1]) then raise (InvalidAction action)
  else mret tt.

Definition _step_reset : M (Env ob) unit := mret tt.

Definition is_done (s : Env ob) : bool :=
  bool_decide (curr_step s >= max_steps_per_episode s).

Definition step (action : Z) (r : rand) : M (Env ob) (ob * Z * bool * info) :=
  done ← gets is_done;
  if done : bool then raise EpisodeExhausted else
  modify (set_curr_step (λ n, n + 1));;
  append_action action;;
  _take_action action;;
  done ← gets is_done;
  reward ← _get_reward;
  o ← _get_obs r;
  append_obs o;;
  _step_reset;;
  mret (o, reward, done, ∅).

(** The state [step] leaves behind once the action is logged, and once
    the observation is logged too. *)
Definition logged (action : Z) (n : nat) (s : Env ob) : Env ob :=
  set_action_episode_memory (alter (.++ [action]) n) (set_curr_step (λ n, n + 1) s).

Definition observed (o : ob) (m : nat) (s : Env ob) : Env ob :=
  set_obs_episode_memory (alter (.++ [o]) m) s.

(** The paths through [step]: where it can leave, with which result and
    in which state. *)
Inductive step_outcome (action : Z) (r : rand) (s : Env ob)
    : result (ob * Z * bool * info) * Env ob → Prop :=
| outcome_exhausted :
    curr_step s >= max_steps_per_episode s →
    step_outcome action r s (inl EpisodeExhausted, s)
| outcome_no_record :
    curr_step s < max_steps_per_episode s →
    index (action_episode_memory s) (curr_episode s) = None →
    step_outcome action r s (inl IndexError, set_curr_step (λ n, n + 1) s)
| outcome_invalid n :
    curr_step s < max_steps_per_episode s →
    index (action_episode_memory s) (curr_episode s) = Some n →
    action ∉ [0; 1] →
    step_outcome action r s (inl (InvalidAction action), logged action n s)
| outcome_reward_raises n e :
    curr_step s < max_steps_per_episode s →
    index (action_episode_memory s) (curr_episode s) = Some n →
    action ∈ [0; 1] →
    _get_reward (logged action n s) = (inl e, logged action n s) →
    step_outcome action r s (inl e, logged action n s)
| outcome_obs_raises n reward e :
    curr_step s < max_steps_per_episode s →
    index (action_episode_memory s) (curr_episode s) = Some n →
    action ∈ [0; 1] →
    _get_reward (logged action n s) = (inr reward, logged action n s) →
    _get_obs r (logged action n s) = (inl e, logged action n s) →
    step_outcome action r s (inl e, logged action n s)
| outcome_obs_no_record n reward o :
    curr_step s < max_steps_per_episode s →
    index (action_episode_memory s) (curr_episode s) = Some n →
    action ∈ [0; 1] →
    _get_reward (logged action n s) = (inr reward, logged action n s) →
    _get_obs r (logged action n s) = (inr o, logged action n s) →
    index (obs_episode_memory s) (curr_episode s) = None →
    step_outcome action r s (inl IndexError, logged action n s)
| outcome_returns n m reward o :
    curr_step s < max_steps_per_episode s →
    index (action_episode_memory s) (curr_episode s) = Some n →
    action ∈ [0; 1] →
    _get_reward (logged action n s) = (inr reward, logged action n s) →
    _get_obs r (logged action n s) = (inr o, logged action n s) →
    index (obs_episode_memory s) (curr_episode s) = Some m →
    step_outcome action r s
      (inr (o, reward, bool_decide (curr_step s + 1 >= max_steps_per_episode s), ∅),
       observed o m (logged action n s)).

Definition reset (r : rand) : M (Env ob) ob :=
  modify (set_curr_step (λ _, 0));;
  modify (set_curr_episode (λ n, n + 1));;
  modify (set_action_episode_memory (.++ [[]]));;
  initial_obs ← _initial_obs r;
  modify (set_obs_episode_memory (.++ [[initial_obs]]));;
  mret initial_obs.

Definition render : M (Env ob) unit := mret tt.

Definition close : M (Env ob) unit := mret tt.

End Controller.

(** ** [GreaterThanZeroEnv] (fobs): the sign-detection environment *)

Module GreaterThanZeroEnv.

(** An observation is the list [[x]] of one sample. *)
Definition ob : Type := list Q.

(** What one call of [np.random.randn()] returns. *)
Definition rand : Type := Q.

Definition _get_reward : M (Env ob) Z :=
  acts ← eval (λ s, getitem (action_episode_memory s) (curr_episode s));
  action ← lift (getitem acts (-1));
  obss ← eval (λ s, getitem (obs_episode_memory s) (curr_episode s));
  last_obs ← lift (getitem obss (-1));
  x ← lift (getitem last_obs 0);
  if gt x 0 then
    if bool_decide (action = 1) then mret 1 else mret (-1)
  else
    if bool_decide (action = 1) then mret (-1) else mret 1.

Definition _get_obs (r : rand) : M (Env ob) ob := mret [r].

(** [reset] does not call [_get_obs]: it builds [[np.random.randn()]]
    itself. *)
Definition _initial_obs (r : rand) : M (Env ob) ob := mret [r].

Definition step : Z → rand → M (Env ob) (ob * Z * bool * info) :=
  step _get_reward _get_obs.

Definition reset : rand → M (Env ob) ob := reset _initial_obs.

End GreaterThanZeroEnv.

(** ** [TwoInARowEnv] (pobs): the consecutive-match environment *)

Module TwoInARowEnv.

(** An observation is the list [[0]] or [[1]]. *)
Definition ob : Type := list Z.

(** The raw random number behind one call of [random.choice]. *)
Definition rand : Type := nat.

Definition _get_reward : M (Env ob) Z :=
  acts ← eval (λ s, getitem (action_episode_memory s) (curr_episode s));
  action ← lift (getitem acts (-1));
  obss ← eval (λ s, getitem (obs_episode_memory s) (curr_episode s));
  if bool_decide (length obss < 2)%nat then
    if bool_decide (action = 0) then mret 1 else mret (-1)
  else
    obss ← eval (λ s, getitem (obs_episode_memory s) (curr_episode s));
    let last_n_obs := last_two obss in
    o0 ← lift (getitem last_n_obs 0);
    o1 ← lift (getitem last_n_obs 1);
    if bool_decide (o0 = o1) then
      if bool_decide (action = 1) then mret 1 else mret (-1)
    else
      if bool_decide (action = 0) then mret 1 else mret (-1).

Definition _get_obs (r : rand) : M (Env ob) ob :=
  x ← lift (random_choice [0; 1] r);
  mret [x].

Definition step : Z → rand → M (Env ob) (ob * Z * bool * info) :=
  step _get_reward _get_obs.

Definition reset : rand → M (Env ob) ob := reset _get_obs.

(** *** [q_values]

    The model and [tabulate] are not part of the package.  The model is
    any object with a [predict] method: a transition of its own state
    [model_state] that returns a batch of rows of values.  [tabulate] is
    any function from the rows and the headers to a string.  The method
    runs on a [World]: the environment, the model, and the log of the
    calls made to [model.predict]. *)

Inductive cell (value : Type) : Type :=
| CStr (s : string)
| CVal (v : value).
Arguments CStr {value}.
Arguments CVal {value}.

Record World (model_state : Type) : Type := mkWorld {
  self : Env ob;
  model : model_state;
  calls : list (list (list Z))
}.
Arguments mkWorld {model_state}.
Arguments self {model_state}.
Arguments model {model_state}.
Arguments calls {model_state}.

Section QValues.
Context {value model_state : Type}.
Variable predict : list (list Z) → model_state → list (list value) * model_state.
Variable tabulate : list (list (cell value)) → list string → string.

(** [model.predict(inp)] *)
Definition model_predict (inp : list (list Z)) : M (World model_state) (list (list value)) :=
  λ w, let '(p, m) := predict inp (model w) in
       (inr p, mkWorld (self w) m (calls w ++ [inp])).

Definition inputs : list (list (list Z)) :=
  [[[0]; [0]]; [[1]; [1]]; [[0]; [1]]; [[1]; [0]]].

Definition headers : list string := ["Obs. Seq"; "Action 0"; "Action 1"]%string.

Definition q_values : M (World model_state) string :=
  preds ← mapM model_predict inputs;
  data ← mapM (λ '(i, inp),
            strs ← mapM (λ _inp, x ← lift (getitem _inp 0); mret (pretty x)) inp;
            let inp_str := join ","%string strs in
            p ← lift (getitem preds i);
            row ← lift (getitem p 0);
            mret (CStr inp_str :: (CVal <$> row)))
          (enumerate inputs);
  let s := tabulate data headers in
  let s := (nl +:+ s +:+ nl)%string in
  mret s.

(** The answers of the model to a list of inputs asked in order, and
    the model they leave. *)
Fixpoint ask (inps : list (list (list Z))) (m : model_state)
    : list (list (list value)) * model_state :=
  match inps with
  | [] => ([], m)
  | inp :: inps =>
      let '(p, m1) := predict inp m in
      let '(ps, m2) := ask inps m1 in
      (p :: ps, m2)
  end.

(** A row of the table: the label of the sequence, then the values. *)
Definition table_row (label : string) (row : list value) : list (cell value) :=
  CStr label :: (CVal <$> row).

End QValues.

End TwoInARowEnv.

(** ** The two variants side by side *)

Inductive variant : Type := GreaterThanZero | TwoInARow.

Definition ob (v : variant) : Type :=
  match v with
  | GreaterThanZero => GreaterThanZeroEnv.ob
  | TwoInARow => TwoInARowEnv.ob
  end.

Definition rand (v : variant) : Type :=
  match v with
  | GreaterThanZero => GreaterThanZeroEnv.rand
  | TwoInARow => TwoInARowEnv.rand
  end.

Definition env_get_reward (v : variant) : M (Env (ob v)) Z :=
  match v with
  | GreaterThanZero => GreaterThanZeroEnv._get_reward
  | TwoInARow => TwoInARowEnv._get_reward
  end.

Definition env_get_obs (v : variant) : rand v → M (Env (ob v)) (ob v) :=
  match v with
  | GreaterThanZero => GreaterThanZeroEnv._get_obs
  | TwoInARow => TwoInARowEnv._get_obs
  end.

Definition env_initial_obs (v : variant) : rand v → M (Env (ob v)) (ob v) :=
  match v with
  | GreaterThanZero => GreaterThanZeroEnv._initial_obs
  | TwoInARow => TwoInARowEnv._get_obs
  end.

Definition env_step (v : variant) : Z → rand v → M (Env (ob v)) (ob v * Z * bool * info) :=
  match v with
  | GreaterThanZero => GreaterThanZeroEnv.step
  | TwoInARow => TwoInARowEnv.step
  end.

Definition env_reset (v : variant) : rand v → M (Env (ob v)) (ob v) :=
  match v with
  | GreaterThanZero => GreaterThanZeroEnv.reset
  | TwoInARow => TwoInARowEnv.reset
  end.

(** A driver's call, and the run of a list of calls. *)
Inductive call (v : variant) : Type :=
| CallReset (r : rand v)
| CallStep (action : Z) (r : rand v).
Arguments CallReset {v}.
Arguments CallStep {v}.

Definition do_call {v} (c : call v) (s : Env (ob v)) : Env (ob v) :=
  match c with
  | CallReset r => snd (env_reset v r s)
  | CallStep a r => snd (env_step v a r s)
  end.

Definition run {v} (cs : list (call v)) (s : Env (ob v)) : Env (ob v) :=
  foldl (λ s c, do_call c s) s cs.

(** The results of consecutive [step] calls, and the state they leave. *)
Fixpoint run_steps {v} (steps : list (Z * rand v)) (s : Env (ob v))
    : list (result (ob v * Z * bool * info)) * Env (ob v) :=
  match steps with
  | [] => ([], s)
  | (a, r) :: steps =>
      let '(o, s1) := env_step v a r s in
      let '(os, s2) := run_steps steps s1 in
      (o :: os, s2)
  end.

(** A run on the consecutive-match variant in which some calls raise: a
    [step] before any [reset], an invalid action, a [step] beyond the
    limit. *)
Definition sample_calls : list (call TwoInARow) :=
  [@CallStep TwoInARow 0 0%nat; @CallReset TwoInARow 1%nat;
   @CallStep TwoInARow 5 0%nat; @CallStep TwoInARow 1 1%nat;
   @CallStep TwoInARow 0 2%nat; @CallStep TwoInARow 0 3%nat;
   @CallReset TwoInARow 0%nat; @CallStep TwoInARow 1 1%nat].

(** An episode of the sign-detection variant just after [reset], with the
    sample 0.5 as its initial observation; and an episode of one step, at
    its limit. *)
Definition fresh_episode (max_steps : Z) : Env GreaterThanZeroEnv.ob :=
  (GreaterThanZeroEnv.reset (1 # 2)%Q (init max_steps)).2.

Definition exhausted_episode : Env GreaterThanZeroEnv.ob :=
  (GreaterThanZeroEnv.step 1 (-1 # 3)%Q (fresh_episode 1)).2.

Definition sample_steps : list (Z * rand GreaterThanZero) :=
  [(1, (-1 # 3)%Q); (0, (2 # 5)%Q)].

(** Two [step] calls of the consecutive-match variant: action 2, which is
    rejected, then action 0. *)
Definition rejected_then_valid : list (Z * rand TwoInARow) :=
  [(2, 0%nat); (0, 1%nat)].

(** Whether a call returned rather than raised. *)
Definition returned {A} (res : result A) : bool :=
  match res with inr _ => true | inl _ => false end.

(** The active episode record: the two logs [curr_episode] points to. *)
Definition active_actions {ob} (s : Env ob) : result (list Z) :=
  getitem (action_episode_memory s) (curr_episode s).

Definition active_obs {ob} (s : Env ob) : result (list ob) :=
  getitem (obs_episode_memory s) (curr_episode s).

(** The shape of the attributes after any number of calls: [curr_episode]
    points to the last record of the two memories, or is -1 when there is
    none. *)
Definition well_formed {ob} (s : Env ob) : Prop :=
  curr_episode s = Z.of_nat (length (action_episode_memory s)) - 1 ∧
  length (obs_episode_memory s) = length (action_episode_memory s).

(** An episode in progress, [k] steps after its [reset]. *)
Definition in_episode {ob} (ob_ok : ob → Prop) (k : nat) (s : Env ob) : Prop :=
  well_formed s ∧
  curr_step s = Z.of_nat k ∧
  ∃ acts obss,
    active_actions s = inr acts ∧ active_obs s = inr obss ∧
    length acts = k ∧ length obss = S k ∧ Forall ob_ok obss.

(** What the observation generator of each variant can return, from the
    sample [r] it is given. *)
Definition generated (v : variant) : rand v → ob v → Prop :=
  match v with
  | GreaterThanZero => λ r o, o = [r]
  | TwoInARow => λ _ o, o = [0] ∨ o = [1]
  end.

(** What [_get_reward] needs of a recorded observation: the sign-detection
    reward reads its first element. *)
Definition ob_ok (v : variant) : ob v → Prop :=
  match v with
  | GreaterThanZero => λ o, o ≠ []
  | TwoInARow => λ _, True
  end.

(** A method that may read the state and never writes it. *)
Definition read_only {S A} (m : M S A) : Prop := ∀ s, (m s).2 = s.

(** An environment on which [reset] has been called: the active record
    exists, every counted step has left its action in the action log, and
    the observation log holds the initial observation and at most one
    observation per logged action. *)
Definition started {ob} (ok : ob → Prop) (s : Env ob) : Prop :=
  well_formed s ∧
  ∃ acts obss,
    active_actions s = inr acts ∧ active_obs s = inr obss ∧
    Z.of_nat (length acts) = curr_step s ∧
    (1 ≤ length obss ≤ length acts + 1)%nat ∧ Forall ok obss.

(** The number of [reset] calls in a list of calls. *)
Fixpoint resets {v} (cs : list (call v)) : nat :=
  match cs with
  | [] => 0
  | CallReset _ :: cs => S (resets cs)
  | CallStep _ _ :: cs => resets cs
  end.

(** A run of the sign-detection variant over two episodes, the first one
    abandoned after a rejected action and one step. *)
Definition two_episodes : list (call GreaterThanZero) :=
  [@CallReset GreaterThanZero (1 # 2)%Q; @CallStep GreaterThanZero 7 (1 # 3)%Q;
   @CallStep GreaterThanZero 1 (-2 # 3)%Q; @CallReset GreaterThanZero (-1 # 5)%Q;
   @CallStep GreaterThanZero 0 (4 # 7)%Q].

(** ** Facts about the Python primitives *)

Section PyFacts.
Context {A : Type}.
Implicit Types (l : list A) (i : Z) (n : nat).

Lemma index_Some l i n :
  index l i = Some n ↔
  (n < length l)%nat ∧ (i = Z.of_nat n ∨ i = Z.of_nat n - Z.of_nat (length l)).
Proof.
  unfold index. repeat case_bool_decide; split.
  all: try (intros [= <-]; split; lia).
  all: try (intros [? [-> | ->]]; f_equal; lia).
  all: try done.
  all: intros [? [-> | ->]]; lia.
Qed.

Lemma index_None l i :
  index l i = None ↔ i < - Z.of_nat (length l) ∨ Z.of_nat (length l) ≤ i.
Proof.
  unfold index. repeat case_bool_decide; split; intros; first [lia | done].
Qed.

Lemma index_same_length {B} l (l' : list B) i :
  length l = length l' → index l i = index l' i.
Proof. unfold index. by intros ->. Qed.

Lemma index_last l :
  l ≠ [] → index l (Z.of_nat (length l) - 1) = Some (length l - 1)%nat.
Proof.
  intros Hl. apply index_Some. destruct l; [done|]. simpl. split; [lia|]. left. lia.
Qed.

Lemma getitem_inr l i x :
  getitem l i = inr x ↔ ∃ n, index l i = Some n ∧ l !! n = Some x.
Proof.
  unfold getitem. destruct (index l i) as [n|]; simpl.
  - destruct (l !! n) eqn:E; split.
    + intros [= <-]. eauto.
    + by intros (? & [= <-] & ?); simplify_eq.
    + done.
    + by intros (? & [= <-] & ?); simplify_eq.
  - split; [done|]. by intros (? & ? & ?).
Qed.

Lemma getitem_index l i n :
  index l i = Some n → ∃ x, l !! n = Some x ∧ getitem l i = inr x.
Proof.
  intros Hi. destruct (lookup_lt_is_Some_2 l n) as [x Hx].
  { by apply index_Some in Hi as [? _]. }
  exists x. split; [done|]. apply getitem_inr; eauto.
Qed.

Lemma getitem_last l x : getitem (l ++ [x]) (-1) = inr x.
Proof.
  apply getitem_inr. exists (length l). split.
  - apply index_Some. rewrite length_app. simpl. split; lia.
  - by rewrite lookup_app_r, Nat.sub_diag.
Qed.

Lemma getitem_alter (f : A → A) l i n x :
  index l i = Some n → l !! n = Some x → getitem (alter f n l) i = inr (f x).
Proof.
  intros Hi Hx. apply getitem_inr. exists n. split.
  - by rewrite (index_same_length _ l) by apply length_alter.
  - by rewrite list_lookup_alter_eq, Hx.
Qed.

End PyFacts.

(** [action in [0, 1]] *)
Lemma valid_action (action : Z) : action ∈ [0; 1] ↔ action = 0 ∨ action = 1.
Proof. rewrite !elem_of_cons, elem_of_nil. tauto. Qed.

(** ** Facts about the episode controller, for any pair of methods
    [_get_reward] and [_get_obs] that only read the state *)

Section ControllerFacts.
Context {ob rand : Type}.
Variable _get_reward : M (Env ob) Z.
Variable _get_obs : rand → M (Env ob) ob.
Variable _initial_obs : rand → M (Env ob) ob.
Variable ok : ob → Prop.

Hypothesis get_reward_read_only : read_only _get_reward.
Hypothesis get_obs_read_only : ∀ r, read_only (_get_obs r).
Hypothesis initial_obs_returns : ∀ r s, ∃ o, _initial_obs r s = (inr o, s) ∧ ok o.
Hypothesis get_obs_returns : ∀ r s, ∃ o, _get_obs r s = (inr o, s) ∧ ok o.
Hypothesis get_reward_returns : ∀ s acts obss,
  active_actions s = inr acts → acts ≠ [] →
  active_obs s = inr obss → obss ≠ [] → Forall ok obss →
  ∃ reward, _get_reward s = (inr reward, s).

Local Abbreviation step_ := (step _get_reward _get_obs).
Local Abbreviation reset_ := (reset _initial_obs).
Local Abbreviation outcome_ := (step_outcome _get_reward _get_obs).

Lemma read_only_eq {A} (m : M (Env ob) A) s : read_only m → m s = ((m s).1, s).
Proof. intros Hm. specialize (Hm s). destruct (m s); simpl in *; by subst. Qed.

Lemma step_outcome_holds action r s : outcome_ action r s (step_ action r s).
Proof.
  unfold step, mbind, M_bind, bind, gets, is_done.
  case_bool_decide as Hdone; [by constructor|].
  unfold modify, append_action. simpl.
  destruct (index (action_episode_memory s) (curr_episode s)) as [n|] eqn:Hn;
    [|constructor; [lia|done]].
  fold (logged action n s).
  unfold _take_action. case_bool_decide as Hact; [constructor; [lia|done..]|].
  assert (action ∈ [0; 1]) by (by destruct (decide (action ∈ [0; 1]))).
  unfold mret, M_ret, ret at 1.
  rewrite (read_only_eq _get_reward (logged action n s)) by done.
  destruct (_get_reward (logged action n s)).1 as [e|reward] eqn:Hrw.
  { eapply outcome_reward_raises; [lia|done..|].
    by rewrite (read_only_eq _get_reward), Hrw. }
  rewrite (read_only_eq (_get_obs r) (logged action n s)) by done.
  destruct (_get_obs r (logged action n s)).1 as [e|o] eqn:Ho.
  { eapply outcome_obs_raises; [lia|done..| |].
    - by rewrite (read_only_eq _get_reward), Hrw.
    - by rewrite (read_only_eq (_get_obs r)), Ho. }
  unfold append_obs. simpl.
  destruct (index (obs_episode_memory s) (curr_episode s)) as [m|] eqn:Hm.
  - unfold _step_reset, mret, M_ret, ret. simpl.
    replace (bool_decide (_ >= _)) with
      (bool_decide (curr_step s + 1 >= max_steps_per_episode s)) by done.
    eapply outcome_returns; [lia|done..| | |done].
    + by rewrite (read_only_eq _get_reward), Hrw.
    + by rewrite (read_only_eq (_get_obs r)), Ho.
  - eapply outcome_obs_no_record; [lia|done..| | |done].
    + by rewrite (read_only_eq _get_reward), Hrw.
    + by rewrite (read_only_eq (_get_obs r)), Ho.
Qed.

Lemma step_when_exhausted action r s :
  max_steps_per_episode s ≤ curr_step s → step_ action r s = (inl EpisodeExhausted, s).
Proof.
  intros Hmax. unfold step, mbind, M_bind, bind, gets, is_done.
  by rewrite bool_decide_eq_true_2 by lia.
Qed.

Lemma reset_eq r s o :
  let s1 := mkEnv (max_steps_per_episode s) (curr_episode s + 1)
              (obs_episode_memory s) (action_episode_memory s ++ [[]]) 0 in
  _initial_obs r s1 = (inr o, s1) →
  reset_ r s =
    (inr o, mkEnv (max_steps_per_episode s) (curr_episode s + 1)
              (obs_episode_memory s ++ [[o]]) (action_episode_memory s ++ [[]]) 0).
Proof.
  intros s1 Ho. unfold reset, mbind, M_bind, bind, modify. simpl.
  unfold set_curr_episode, set_action_episode_memory, set_curr_step. simpl.
  fold s1. by rewrite Ho.
Qed.

Lemma reset_returns r s :
  ∃ o, ok o ∧
    reset_ r s =
      (inr o, mkEnv (max_steps_per_episode s) (curr_episode s + 1)
                (obs_episode_memory s ++ [[o]]) (action_episode_memory s ++ [[]]) 0).
Proof.
  destruct (initial_obs_returns r
    (mkEnv (max_steps_per_episode s) (curr_episode s + 1)
       (obs_episode_memory s) (action_episode_memory s ++ [[]]) 0)) as (o & Ho & Hok).
  exists o. split; [done|]. by apply reset_eq.
Qed.

(** *** What every path of [step] preserves *)

Lemma outcome_max_steps action r s p :
  outcome_ action r s p → max_steps_per_episode p.2 = max_steps_per_episode s.
Proof. by destruct 1. Qed.

Lemma outcome_curr_episode action r s p :
  outcome_ action r s p → curr_episode p.2 = curr_episode s.
Proof. by destruct 1. Qed.

Lemma outcome_curr_step_bounds action r s p :
  outcome_ action r s p →
  0 ≤ curr_step s ≤ max_steps_per_episode s →
  0 ≤ curr_step p.2 ≤ max_steps_per_episode s.
Proof. destruct 1; simpl; lia. Qed.

Lemma outcome_well_formed action r s p :
  outcome_ action r s p → well_formed s → well_formed p.2.
Proof.
  unfold well_formed.
  destruct 1; simpl; rewrite ?length_alter; done.
Qed.

Lemma reset_well_formed r s : well_formed s → well_formed (reset_ r s).2.
Proof.
  intros [Hce Hlen]. destruct (reset_returns r s) as (o & _ & ->).
  split; simpl; rewrite !length_app; simpl; lia.
Qed.

(** *** An episode in progress *)

Lemma reset_in_episode r s : well_formed s → in_episode ok 0 (reset_ r s).2.
Proof.
  intros Hwf. split; [by apply reset_well_formed|].
  destruct Hwf as [Hce Hlen]. destruct (reset_returns r s) as (o & Hok & ->).
  simpl. split; [done|]. exists [], [o]. unfold active_actions, active_obs. simpl.
  rewrite Hce. repeat split; [| |by repeat constructor].
  - apply getitem_inr. exists (length (action_episode_memory s)). split.
    + apply index_Some. rewrite length_app. simpl. split; lia.
    + by rewrite lookup_app_r, Nat.sub_diag.
  - apply getitem_inr. exists (length (obs_episode_memory s)). split.
    + apply index_Some. rewrite length_app. simpl. split; lia.
    + by rewrite lookup_app_r, Nat.sub_diag.
Qed.

Lemma in_episode_returns k s action r n m reward o :
  in_episode ok k s →
  index (action_episode_memory s) (curr_episode s) = Some n →
  index (obs_episode_memory s) (curr_episode s) = Some m →
  ok o →
  outcome_ action r s (inr reward, observed o m (logged action n s)) →
  in_episode ok (S k) (observed o m (logged action n s)).
Proof.
  intros (Hwf & Hk & acts & obss & Ha & Ho & Hla & Hlo & Hall) Hn Hm Hok Hout.
  split; [by apply (outcome_well_formed _ _ _ _ Hout)|].
  split; [simpl; lia|].
  apply getitem_inr in Ha as (n' & Hn' & Hacts).
  apply getitem_inr in Ho as (m' & Hm' & Hobss).
  assert (n' = n) as -> by congruence. assert (m' = m) as -> by congruence.
  exists (acts ++ [action]), (obss ++ [o]).
  unfold active_actions, active_obs. simpl.
  rewrite (getitem_alter _ _ _ _ acts), (getitem_alter _ _ _ _ obss) by done.
  rewrite !length_app. simpl. repeat split; [lia..|].
  apply Forall_app. split; [done|by constructor].
Qed.

(** A [step] that returns within an episode moves it one step forward;
    it can return only below the limit and only for a valid action. *)
Lemma step_returns_in_episode k s action r res :
  in_episode ok k s →
  (step_ action r s).1 = inr res →
  in_episode ok (S k) (step_ action r s).2 ∧
  Z.of_nat k < max_steps_per_episode s ∧ action ∈ [0; 1].
Proof.
  intros Hep Hres. pose proof (step_outcome_holds action r s) as Hout.
  pose proof Hep as (_ & Hk & _).
  destruct Hout as [| | | | |n reward o ? ? ? ? Hobs|n m reward o ? Hn ? Hrw Hobs Hm] eqn:E;
    simpl in Hres; try discriminate.
  clear E. split; [|split; [lia|done]].
  destruct (get_obs_returns r (logged action n s)) as (o' & Ho' & Hok).
  assert (o' = o) as -> by congruence.
  eapply in_episode_returns; [done..|].
  by eapply outcome_returns.
Qed.

(** Below the limit, a valid action makes [step] return, with the [done]
    flag computed from the incremented step count. *)
Lemma step_in_episode k s action r :
  in_episode ok k s →
  Z.of_nat k < max_steps_per_episode s →
  action ∈ [0; 1] →
  ∃ o reward,
    (step_ action r s).1 =
      inr (o, reward, bool_decide (Z.of_nat (S k) >= max_steps_per_episode s), ∅) ∧
    in_episode ok (S k) (step_ action r s).2.
Proof.
  intros Hep Hlt Hact. pose proof (step_outcome_holds action r s) as Hout.
  pose proof Hep as (Hwf & Hk & acts & obss & Ha & Ho & Hla & Hlo & Hall).
  apply getitem_inr in Ha as (n & Hn & Hacts).
  apply getitem_inr in Ho as (m & Hm & Hobss).
  assert (∃ reward, _get_reward (logged action n s) = (inr reward, logged action n s))
    as [reward Hreward].
  { apply (get_reward_returns _ (acts ++ [action]) obss).
    - unfold active_actions. simpl. by rewrite (getitem_alter _ _ _ _ acts).
    - by destruct acts.
    - unfold active_obs. simpl. apply getitem_inr. eauto.
    - destruct obss; [done|discriminate].
    - done. }
  destruct (get_obs_returns r (logged action n s)) as (o & Hobs & Hok).
  destruct Hout as [| | | | | |n' m' reward' o' ? Hn' ? Hrw' Hobs' Hm'];
    simpl; try lia; try congruence.
  assert (n' = n) as -> by congruence. assert (m' = m) as -> by congruence.
  assert (o' = o) as -> by congruence.
  exists o, reward'. split.
  - do 4 f_equal. apply bool_decide_ext. lia.
  - eapply in_episode_returns; [done..|]. by eapply outcome_returns.
Qed.

End ControllerFacts.

(** ** Facts about the methods of the two variants *)

Section ReadOnly.
Context {S : Type}.

Lemma read_only_ret {A} (x : A) : read_only (mret x : M S A).
Proof. done. Qed.

Lemma read_only_lift {A} (r : result A) : read_only (lift r : M S A).
Proof. done. Qed.

Lemma read_only_eval {A} (f : S → result A) : read_only (eval f).
Proof. done. Qed.

Lemma read_only_bind {A B} (m : M S A) (k : A → M S B) :
  read_only m → (∀ x, read_only (k x)) → read_only (m ≫= k).
Proof.
  intros Hm Hk s. unfold mbind, M_bind, bind. specialize (Hm s).
  destruct (m s) as [[e|x] s']; simpl in *; subst; [done|apply Hk].
Qed.

End ReadOnly.

Ltac solve_read_only :=
  repeat first
    [ apply read_only_ret | apply read_only_lift | apply read_only_eval
    | apply read_only_bind; [|intros ?]
    | case_bool_decide
    | match goal with |- read_only (if ?b then _ else _) => destruct b end ].

Lemma env_get_reward_read_only v : read_only (env_get_reward v).
Proof.
  destruct v; simpl.
  - unfold GreaterThanZeroEnv._get_reward. solve_read_only.
  - unfold TwoInARowEnv._get_reward. solve_read_only.
Qed.

Lemma random_choice_bit r : random_choice [0; 1] r = inr 0 ∨ random_choice [0; 1] r = inr 1.
Proof.
  unfold random_choice. simpl length.
  pose proof (Nat.mod_upper_bound r 2 ltac:(done)) as Hr.
  destruct (r mod 2)%nat as [|[|?]]; [by left|by right|lia].
Qed.

Lemma env_get_obs_returns v r s :
  ∃ o, env_get_obs v r s = (inr o, s) ∧ ob_ok v o ∧ generated v r o.
Proof.
  destruct v; simpl.
  - exists [r]. done.
  - unfold TwoInARowEnv._get_obs, mbind, M_bind, bind, lift.
    destruct (random_choice_bit r) as [-> | ->]; eexists; (split; [done|]); auto.
Qed.

Lemma env_initial_obs_returns v r s :
  ∃ o, env_initial_obs v r s = (inr o, s) ∧ ob_ok v o ∧ generated v r o.
Proof.
  destruct v; [by exists [r]|]. apply (env_get_obs_returns TwoInARow).
Qed.

Lemma env_get_obs_read_only v r : read_only (env_get_obs v r).
Proof. intros s. by destruct (env_get_obs_returns v r s) as (o & -> & _). Qed.

(** The reward of the sign-detection variant, from the two logs it reads. *)
Lemma fobs_get_reward s acts action obss x rest :
  active_actions s = inr (acts ++ [action]) →
  active_obs s = inr (obss ++ [x :: rest]) →
  GreaterThanZeroEnv._get_reward s =
    (inr (if gt x 0
          then if bool_decide (action = 1) then 1 else -1
          else if bool_decide (action = 1) then -1 else 1), s).
Proof.
  unfold active_actions, active_obs, GreaterThanZeroEnv._get_reward.
  intros Ha Ho. unfold mbind, M_bind, bind, eval, lift.
  rewrite Ha, Ho, !getitem_last. simpl.
  destruct (gt x 0); by case_bool_decide.
Qed.

(** The reward of the consecutive-match variant, on the first step and
    later. *)
Lemma pobs_get_reward_first s acts action obss :
  active_actions s = inr (acts ++ [action]) →
  active_obs s = inr obss →
  (length obss < 2)%nat →
  TwoInARowEnv._get_reward s = (inr (if bool_decide (action = 0) then 1 else -1), s).
Proof.
  unfold active_actions, active_obs, TwoInARowEnv._get_reward.
  intros Ha Ho Hlen. unfold mbind, M_bind, bind, eval, lift.
  rewrite Ha, Ho, !getitem_last.
  rewrite bool_decide_eq_true_2 by done. by case_bool_decide.
Qed.

Lemma last_two_app {A} (l : list A) x y : last_two (l ++ [x; y]) = [x; y].
Proof.
  unfold last_two. rewrite length_app. simpl.
  replace (length l + 2 - 2)%nat with (length l) by lia.
  by rewrite drop_app_length.
Qed.

Lemma pobs_get_reward_later s acts action obss o0 o1 :
  active_actions s = inr (acts ++ [action]) →
  active_obs s = inr (obss ++ [o0; o1]) →
  TwoInARowEnv._get_reward s =
    (inr (if bool_decide (o0 = o1)
          then if bool_decide (action = 1) then 1 else -1
          else if bool_decide (action = 0) then 1 else -1), s).
Proof.
  unfold active_actions, active_obs, TwoInARowEnv._get_reward.
  intros Ha Ho. unfold mbind, M_bind, bind, eval, lift.
  rewrite Ha, Ho, !getitem_last.
  rewrite bool_decide_eq_false_2 by (rewrite length_app; simpl; lia).
  rewrite Ho, last_two_app. simpl.
  repeat case_bool_decide; done.
Qed.

Lemma env_get_reward_returns v s acts obss :
  active_actions s = inr acts → acts ≠ [] →
  active_obs s = inr obss → obss ≠ [] → Forall (ob_ok v) obss →
  ∃ reward, env_get_reward v s = (inr reward, s).
Proof.
  intros Ha Hacts Ho Hobss Hok.
  destruct (exists_last Hacts) as (acts' & action & ->).
  destruct (exists_last Hobss) as (obss' & o & ->).
  destruct v; simpl in *.
  - apply Forall_app in Hok as [_ Hok]. apply Forall_inv in Hok.
    destruct o as [|x rest]; [exfalso; by apply Hok|]. eexists. by eapply fobs_get_reward.
  - destruct obss' as [|o' obss'' _] using rev_ind.
    + eexists. eapply pobs_get_reward_first; [done..|simpl; lia].
    + rewrite <- app_assoc in Ho. simpl in Ho.
      eexists. by eapply pobs_get_reward_later.
Qed.

(** ** The controller of either variant *)

Lemma env_step_eq v : env_step v = step (env_get_reward v) (env_get_obs v).
Proof. by destruct v. Qed.

Lemma env_reset_eq v : env_reset v = reset (env_initial_obs v).
Proof. by destruct v. Qed.

Lemma env_step_outcome v action r s :
  step_outcome (env_get_reward v) (env_get_obs v) action r s (env_step v action r s).
Proof.
  rewrite env_step_eq. apply step_outcome_holds.
  - apply env_get_reward_read_only.
  - apply env_get_obs_read_only.
Qed.

Lemma env_step_when_exhausted v action r s :
  max_steps_per_episode s ≤ curr_step s →
  env_step v action r s = (inl EpisodeExhausted, s).
Proof. rewrite env_step_eq. apply step_when_exhausted. Qed.

Lemma env_reset_returns v r s :
  ∃ o, generated v r o ∧
    env_reset v r s =
      (inr o, mkEnv (max_steps_per_episode s) (curr_episode s + 1)
                (obs_episode_memory s ++ [[o]]) (action_episode_memory s ++ [[]]) 0).
Proof.
  destruct (env_initial_obs_returns v r
    (mkEnv (max_steps_per_episode s) (curr_episode s + 1)
       (obs_episode_memory s) (action_episode_memory s ++ [[]]) 0)) as (o & Ho & _ & Hgen).
  exists o. split; [done|]. rewrite env_reset_eq. by apply reset_eq.
Qed.

Lemma env_reset_in_episode v r s :
  well_formed s → in_episode (ob_ok v) 0 (env_reset v r s).2.
Proof.
  rewrite env_reset_eq. apply reset_in_episode.
  intros r' s'. destruct (env_initial_obs_returns v r' s') as (o & ? & ? & _). eauto.
Qed.

Lemma env_step_in_episode v k s action r :
  in_episode (ob_ok v) k s →
  Z.of_nat k < max_steps_per_episode s →
  action ∈ [0; 1] →
  ∃ o reward,
    (env_step v action r s).1 =
      inr (o, reward, bool_decide (Z.of_nat (S k) >= max_steps_per_episode s), ∅) ∧
    in_episode (ob_ok v) (S k) (env_step v action r s).2.
Proof.
  rewrite env_step_eq. apply step_in_episode.
  - apply env_get_reward_read_only.
  - apply env_get_obs_read_only.
  - intros r' s'. destruct (env_get_obs_returns v r' s') as (o & ? & ? & _). eauto.
  - apply env_get_reward_returns.
Qed.

Lemma env_step_returns_in_episode v k s action r res :
  in_episode (ob_ok v) k s →
  (env_step v action r s).1 = inr res →
  in_episode (ob_ok v) (S k) (env_step v action r s).2 ∧
  Z.of_nat k < max_steps_per_episode s ∧ action ∈ [0; 1].
Proof.
  rewrite env_step_eq. apply step_returns_in_episode.
  - apply env_get_reward_read_only.
  - apply env_get_obs_read_only.
  - intros r' s'. destruct (env_get_obs_returns v r' s') as (o & ? & ? & _). eauto.
Qed.

Lemma do_call_well_formed v (c : call v) s : well_formed s → well_formed (do_call c s).
Proof.
  destruct c as [r|action r]; simpl.
  - rewrite env_reset_eq. apply (reset_well_formed _ (ob_ok v)).
    intros r' s'. destruct (env_initial_obs_returns v r' s') as (o & ? & ? & _). eauto.
  - apply (outcome_well_formed _ _ _ _ _ _ (env_step_outcome v action r s)).
Qed.

Lemma run_well_formed v (cs : list (call v)) s : well_formed s → well_formed (run cs s).
Proof.
  revert s. induction cs as [|c cs IH]; intros s Hs; [done|].
  simpl. apply IH. by apply do_call_well_formed.
Qed.

Lemma init_well_formed {ob} max_steps : well_formed (init (ob:=ob) max_steps).
Proof. done. Qed.

Lemma do_call_bounds v (c : call v) s :
  0 ≤ max_steps_per_episode s →
  0 ≤ curr_step s ≤ max_steps_per_episode s →
  max_steps_per_episode (do_call c s) = max_steps_per_episode s ∧
  0 ≤ curr_step (do_call c s) ≤ max_steps_per_episode s.
Proof.
  intros Hmax Hs. destruct c as [r|action r]; simpl.
  - destruct (env_reset_returns v r s) as (o & _ & ->). simpl. lia.
  - pose proof (env_step_outcome v action r s) as Hout. split.
    + apply (outcome_max_steps _ _ _ _ _ _ Hout).
    + by apply (outcome_curr_step_bounds _ _ _ _ _ _ Hout).
Qed.

(** ** Properties of the episode controller *)

(** C10: on either variant, after any sequence of [reset] and [step] calls
    on an environment created with a limit [max_steps >= 0], whether or not
    some of the calls raised, the step counter lies between 0 and the limit,
    and the limit is the configured one. *)
Theorem curr_step_within_limit v (max_steps : Z) (cs : list (call v)) :
  0 ≤ max_steps →
  max_steps_per_episode (run cs (init max_steps)) = max_steps ∧
  0 ≤ curr_step (run cs (init max_steps)) ≤ max_steps.
Proof.
  intros Hmax.
  assert (∀ s : Env (ob v),
    max_steps_per_episode s = max_steps → 0 ≤ curr_step s ≤ max_steps →
    max_steps_per_episode (run cs s) = max_steps ∧
    0 ≤ curr_step (run cs s) ≤ max_steps) as Hrun.
  { induction cs as [|c cs IH]; intros s Hs Hstep; [done|].
    simpl. destruct (do_call_bounds v c s) as [Hm Hb]; [lia..|].
    apply IH; [congruence|lia]. }
  apply Hrun; simpl; [done|lia].
Qed.

Lemma curr_step_within_limit_witness :
  0 ≤ 2 ∧
  max_steps_per_episode (run sample_calls (init 2)) = 2 ∧
  0 ≤ curr_step (run sample_calls (init 2)) ≤ 2.
Proof.
  split; [lia|]. apply (curr_step_within_limit TwoInARow 2 sample_calls). lia.
Defined.

(** C4: on either variant, once the step count of the current episode has
    reached [max_steps_per_episode], [step] raises [EpisodeExhausted] for
    every action and leaves every attribute of the environment as it was. *)
Theorem step_after_done_rejected v (s : Env (ob v)) (action : Z) (r : rand v) :
  max_steps_per_episode s ≤ curr_step s →
  env_step v action r s = (inl EpisodeExhausted, s).
Proof. apply env_step_when_exhausted. Qed.

(** A [step] that returned [done = True] leaves the episode exhausted. *)
Lemma done_leaves_exhausted v (s : Env (ob v)) action r o reward inf :
  (env_step v action r s).1 = inr (o, reward, true, inf) →
  max_steps_per_episode (env_step v action r s).2 ≤ curr_step (env_step v action r s).2.
Proof.
  intros Hres. destruct (env_step_outcome v action r s); simpl in *; try discriminate.
  injection Hres as _ _ Hdone _. apply bool_decide_eq_true in Hdone. lia.
Qed.

Lemma step_after_done_rejected_witness :
  max_steps_per_episode exhausted_episode ≤ curr_step exhausted_episode ∧
  env_step GreaterThanZero 2 (1 # 4)%Q exhausted_episode =
    (inl EpisodeExhausted, exhausted_episode).
Proof.
  split; [by vm_compute|].
  apply (step_after_done_rejected GreaterThanZero exhausted_episode 2 (1 # 4)%Q).
  by vm_compute.
Defined.

(** C8: on either variant [reset] returns in every state; it adds one to
    the episode index, sets the step count to 0, appends a record holding
    the initial observation alone to the observation memory and an empty
    record to the action memory, and returns that observation, which is one
    the generator of the variant produces.  The first [reset] of an
    environment gives index 0, and a second [reset] in a row gives another
    index and keeps the record of the first. *)
Theorem reset_starts_new_episode v (r : rand v) (s : Env (ob v)) :
  (∃ o, generated v r o ∧
     env_reset v r s =
       (inr o, mkEnv (max_steps_per_episode s) (curr_episode s + 1)
                 (obs_episode_memory s ++ [[o]]) (action_episode_memory s ++ [[]]) 0)) ∧
  (∀ max_steps, curr_episode (env_reset v r (init max_steps)).2 = 0) ∧
  (∀ r', let s1 := (env_reset v r s).2 in
         let s2 := (env_reset v r' s1).2 in
         curr_episode s2 ≠ curr_episode s1 ∧
         ∃ o o', generated v r o ∧ generated v r' o' ∧
           obs_episode_memory s2 = obs_episode_memory s ++ [[o]] ++ [[o']] ∧
           action_episode_memory s2 = action_episode_memory s ++ [[]] ++ [[]]).
Proof.
  split; [apply env_reset_returns|]. split.
  - intros max_steps.
    by destruct (env_reset_returns v r (init max_steps)) as (o & _ & ->).
  - intros r'. simpl.
    destruct (env_reset_returns v r s) as (o & Hgen & ->). simpl.
    destruct (env_reset_returns v r'
      (mkEnv (max_steps_per_episode s) (curr_episode s + 1)
         (obs_episode_memory s ++ [[o]]) (action_episode_memory s ++ [[]]) 0))
      as (o' & Hgen' & ->). simpl.
    split; [lia|]. exists o, o'. by rewrite <- !app_assoc.
Qed.

(** *** Consecutive steps of one episode *)

Lemma run_steps_cons v action r (steps : list (Z * rand v)) s :
  run_steps ((action, r) :: steps) s =
    ((env_step v action r s).1 :: (run_steps steps (env_step v action r s).2).1,
     (run_steps steps (env_step v action r s).2).2).
Proof.
  simpl. destruct (env_step v action r s) as [res s1]. simpl.
  by destruct (run_steps steps s1).
Qed.

Lemma env_step_max_steps v action r s :
  max_steps_per_episode (env_step v action r s).2 = max_steps_per_episode s.
Proof. apply (outcome_max_steps _ _ _ _ _ _ (env_step_outcome v action r s)). Qed.

Lemma run_max_steps v (cs : list (call v)) s :
  max_steps_per_episode (run cs s) = max_steps_per_episode s.
Proof.
  revert s. induction cs as [|c cs IH]; intros s; [done|].
  simpl. rewrite IH. destruct c as [r|action r]; simpl.
  - by destruct (env_reset_returns v r s) as (o & _ & ->).
  - apply env_step_max_steps.
Qed.

Lemma run_steps_returned v k s (steps : list (Z * rand v)) :
  in_episode (ob_ok v) k s →
  forallb returned (run_steps steps s).1 = true →
  in_episode (ob_ok v) (k + length steps) (run_steps steps s).2 ∧
  (steps ≠ [] → Z.of_nat (k + length steps) ≤ max_steps_per_episode s).
Proof.
  revert k s. induction steps as [|[action r] steps IH]; intros k s Hep Hret.
  - simpl. by rewrite Nat.add_0_r.
  - rewrite run_steps_cons in *. simpl in *.
    apply andb_prop in Hret as [Hret Hrets].
    destruct (env_step v action r s).1 as [e|res] eqn:Hres; [done|].
    destruct (env_step_returns_in_episode v k s action r res Hep Hres) as (Hep' & Hlt & _).
    destruct (IH (S k) _ Hep' Hrets) as [Hep'' Hle].
    rewrite Nat.add_succ_r. split; [done|]. intros _.
    destruct steps as [|ar steps']; [simpl in *; lia|].
    rewrite env_step_max_steps in Hle. simpl in *. apply Hle. done.
Qed.

Lemma run_steps_valid v k s (steps : list (Z * rand v)) :
  in_episode (ob_ok v) k s →
  Forall (λ ar, ar.1 ∈ [0; 1]) steps →
  Z.of_nat (k + length steps) ≤ max_steps_per_episode s →
  ∀ i, (i < length steps)%nat →
    ∃ o reward,
      (run_steps steps s).1 !! i =
        Some (inr (o, reward,
                   bool_decide (Z.of_nat (k + S i) = max_steps_per_episode s), ∅)) ∧
      curr_step (run_steps (take (S i) steps) s).2 = Z.of_nat (k + S i).
Proof.
  revert k s. induction steps as [|[action r] steps IH]; intros k s Hep Hvalid Hle i Hi.
  { simpl in Hi. lia. }
  apply Forall_cons in Hvalid as [Hact Hvalid]. simpl in Hact, Hle, Hi.
  destruct (env_step_in_episode v k s action r Hep ltac:(lia) Hact)
    as (o & reward & Hres & Hep').
  rewrite firstn_cons, !run_steps_cons. simpl.
  destruct i as [|i].
  - exists o, reward. rewrite Hres. simpl. split.
    + do 5 f_equal. apply bool_decide_ext. lia.
    + destruct Hep' as (_ & -> & _). lia.
  - destruct (IH (S k) (env_step v action r s).2 Hep' Hvalid) with (i := i)
      as (o' & reward' & Hi' & Hstep').
    { rewrite env_step_max_steps. lia. }
    { lia. }
    exists o', reward'. rewrite env_step_max_steps in Hi'.
    rewrite Hstep'. split; [|lia].
    etrans; [exact Hi'|]. do 5 f_equal. apply bool_decide_ext. lia.
Qed.

(** On either variant, after a [reset] in any state the environment can
    reach and [k] further [step] calls that all returned, the active record
    holds [k] actions and [k + 1] observations, so the observation log is
    one longer than the action log; this covers [k = 0], the state right
    after [reset].  Steps can all return only up to the limit. *)
Lemma episode_record_lengths v (max_steps : Z) (cs : list (call v)) (r : rand v)
    (steps : list (Z * rand v)) :
  forallb returned (run_steps steps (env_reset v r (run cs (init max_steps))).2).1 = true →
  ∃ acts obss,
    active_actions (run_steps steps (env_reset v r (run cs (init max_steps))).2).2 = inr acts ∧
    active_obs (run_steps steps (env_reset v r (run cs (init max_steps))).2).2 = inr obss ∧
    length acts = length steps ∧
    length obss = S (length steps) ∧
    length obss = (length acts + 1)%nat ∧
    (steps ≠ [] → Z.of_nat (length steps) ≤ max_steps).
Proof.
  intros Hret.
  pose proof (run_well_formed v cs _ (init_well_formed max_steps)) as Hwf.
  pose proof (env_reset_in_episode v r _ Hwf) as Hep.
  destruct (run_steps_returned v 0 _ steps Hep Hret)
    as [(_ & _ & acts & obss & Ha & Ho & Hla & Hlo & _) Hle].
  exists acts, obss. simpl in *. repeat split; [done..|lia|].
  intros Hne. specialize (Hle Hne).
  destruct (env_reset_returns v r (run cs (init max_steps))) as (o & _ & Heq).
  rewrite Heq in Hle. simpl in Hle. by rewrite run_max_steps in Hle.
Qed.

Lemma episode_record_lengths_sample :
  forallb returned (run_steps sample_steps
    (env_reset GreaterThanZero (1 # 2)%Q (run [] (init 2))).2).1 = true ∧
  ∃ acts obss,
    active_actions (run_steps sample_steps
      (env_reset GreaterThanZero (1 # 2)%Q (run [] (init 2))).2).2 = inr acts ∧
    active_obs (run_steps sample_steps
      (env_reset GreaterThanZero (1 # 2)%Q (run [] (init 2))).2).2 = inr obss ∧
    length acts = length sample_steps ∧
    length obss = S (length sample_steps) ∧
    length obss = (length acts + 1)%nat ∧
    (sample_steps ≠ [] → Z.of_nat (length sample_steps) ≤ 2).
Proof.
  split; [by vm_compute|].
  apply (episode_record_lengths GreaterThanZero 2 [] (1 # 2)%Q sample_steps).
  by vm_compute.
Defined.

(** C2: the log lengths after a completed step, evaluated where an earlier
    call of the episode was rejected.  After [reset], [step(2)] raises
    [InvalidAction] and [step(0)] returns; the active record then holds the
    two actions 2 and 0 and two observations, not one observation more than
    actions: the rejected action stayed in the log. *)
Theorem completed_step_after_rejected_action :
  (run_steps rejected_then_valid (env_reset TwoInARow 0%nat (init 100)).2).1 =
    [inl (InvalidAction 2); inr ([1], 1, false, ∅)] ∧
  active_actions (run_steps rejected_then_valid (env_reset TwoInARow 0%nat (init 100)).2).2 =
    inr [2; 0] ∧
  active_obs (run_steps rejected_then_valid (env_reset TwoInARow 0%nat (init 100)).2).2 =
    inr [[0]; [1]] ∧
  curr_step (run_steps rejected_then_valid (env_reset TwoInARow 0%nat (init 100)).2).2 = 2.
Proof. repeat split; by vm_compute. Qed.

(** C3: on either variant, in a sequence of [step] calls with valid actions
    that follows a [reset] and stays within the limit, every call returns,
    and the [done] flag of a call is true exactly when the step count it has
    just incremented equals [max_steps_per_episode]: false on every earlier
    call of the episode. *)
Theorem done_exactly_at_limit v (max_steps : Z) (cs : list (call v)) (r : rand v)
    (steps : list (Z * rand v)) (i : nat) :
  Forall (λ ar, ar.1 ∈ [0; 1]) steps →
  Z.of_nat (length steps) ≤ max_steps →
  (i < length steps)%nat →
  ∃ o reward,
    (run_steps steps (env_reset v r (run cs (init max_steps))).2).1 !! i =
      Some (inr (o, reward, bool_decide (Z.of_nat (S i) = max_steps), ∅)) ∧
    curr_step (run_steps (take (S i) steps)
                 (env_reset v r (run cs (init max_steps))).2).2 = Z.of_nat (S i).
Proof.
  intros Hvalid Hle Hi.
  pose proof (run_well_formed v cs _ (init_well_formed max_steps)) as Hwf.
  pose proof (env_reset_in_episode v r _ Hwf) as Hep.
  assert (max_steps_per_episode (env_reset v r (run cs (init max_steps))).2 = max_steps)
    as Hmax.
  { destruct (env_reset_returns v r (run cs (init max_steps))) as (o & _ & ->).
    simpl. by rewrite run_max_steps. }
  destruct (run_steps_valid v 0 _ steps Hep Hvalid ltac:(simpl; lia) i Hi)
    as (o & reward & Hres & Hstep).
  rewrite Hmax in Hres. eauto.
Qed.

Lemma done_exactly_at_limit_witness :
  ∃ o reward,
    (run_steps sample_steps (env_reset GreaterThanZero (1 # 2)%Q (run [] (init 2))).2).1
      !! 1%nat = Some (inr (o, reward, bool_decide (Z.of_nat 2 = 2), ∅)) ∧
    curr_step (run_steps (take 2 sample_steps)
                 (env_reset GreaterThanZero (1 # 2)%Q (run [] (init 2))).2).2 = Z.of_nat 2.
Proof.
  apply (done_exactly_at_limit GreaterThanZero 2 [] (1 # 2)%Q sample_steps 1).
  - repeat constructor; simpl; apply valid_action; lia.
  - simpl. lia.
  - simpl. lia.
Defined.

(** *** The reward a returning [step] reports *)

Lemma active_actions_logged {ob} (s : Env ob) action n acts :
  index (action_episode_memory s) (curr_episode s) = Some n →
  active_actions s = inr acts →
  active_actions (logged action n s) = inr (acts ++ [action]).
Proof.
  intros Hn Ha. apply getitem_inr in Ha as (n' & Hn' & Hacts).
  assert (n' = n) as -> by congruence.
  unfold active_actions. simpl. by rewrite (getitem_alter _ _ _ _ acts).
Qed.

Lemma active_no_record {ob A} (mem : Env ob → list (list A)) (s : Env ob) x :
  getitem (mem s) (curr_episode s) = inr x →
  index (mem s) (curr_episode s) ≠ None.
Proof. intros (n & -> & _)%getitem_inr. done. Qed.

(** Below the limit, with an active record and a valid action, [step]
    returns the reward that [_get_reward] computes once the action is
    logged and before the next observation is. *)
Lemma env_step_reward v (s : Env (ob v)) action r acts obss reward :
  active_actions s = inr acts →
  active_obs s = inr obss →
  curr_step s < max_steps_per_episode s →
  action ∈ [0; 1] →
  (∀ s', active_actions s' = inr (acts ++ [action]) → active_obs s' = inr obss →
         env_get_reward v s' = (inr reward, s')) →
  ∃ o, (env_step v action r s).1 =
         inr (o, reward, bool_decide (curr_step s + 1 >= max_steps_per_episode s), ∅).
Proof.
  intros Ha Ho Hlt Hact Hreward.
  pose proof (active_no_record action_episode_memory s acts Ha) as Hna.
  pose proof (active_no_record obs_episode_memory s obss Ho) as Hno.
  destruct (env_step_outcome v action r s)
    as [?|?|n ? ? ?|n e ? Hn ? Hrw|n rw e ? Hn ? Hrw Hobs|n rw o|n m rw o ? Hn ? Hrw];
    simpl; try lia; try done.
  - rewrite Hreward in Hrw; [done|by apply active_actions_logged|done].
  - destruct (env_get_obs_returns v r (logged action n s)) as (o & Hobs' & _). congruence.
  - rewrite Hreward in Hrw; [|by apply active_actions_logged|done].
    exists o. congruence.
Qed.

Lemma gt_spec (x y : Q) : gt x y = true ↔ (y < x)%Q.
Proof.
  unfold gt. rewrite (Qgt_alt x y). destruct (x ?= y)%Q; split; done.
Qed.

(** C6: in the sign-detection environment, when the most recent recorded
    observation is [o] (the list [o :: rest] in the log, of which the reward
    reads the first element) and the action just taken is 0 or 1, the reward
    [step] returns is +1 if [o > 0] and the action is 1, or [o <= 0] and the
    action is 0, and -1 otherwise. *)
Theorem sign_detection_reward (s : Env GreaterThanZeroEnv.ob) acts obss (o : Q) rest
    (action : Z) (r : Q) :
  active_actions s = inr acts →
  active_obs s = inr (obss ++ [o :: rest]) →
  curr_step s < max_steps_per_episode s →
  action ∈ [0; 1] →
  ∃ next reward done,
    (GreaterThanZeroEnv.step action r s).1 = inr (next, reward, done, ∅) ∧
    (((0 < o)%Q ∧ action = 1) ∨ ((o <= 0)%Q ∧ action = 0) → reward = 1) ∧
    (¬ (((0 < o)%Q ∧ action = 1) ∨ ((o <= 0)%Q ∧ action = 0)) → reward = -1).
Proof.
  intros Ha Ho Hlt Hact.
  destruct (env_step_reward GreaterThanZero s action r acts (obss ++ [o :: rest])
    (if gt o 0
     then if bool_decide (action = 1) then 1 else -1
     else if bool_decide (action = 1) then -1 else 1) Ha Ho Hlt Hact) as [next Hres].
  { intros s' Ha' Ho'. by apply (fobs_get_reward s' acts action obss o rest). }
  exists next. eexists. eexists. split; [exact Hres|].
  assert (action = 0 ∨ action = 1) as Hcases by (by apply valid_action).
  destruct (gt o 0) eqn:Hgt.
  - apply gt_spec in Hgt. case_bool_decide; split; try done.
    + intros []. left. split; [done|]. lia.
    + intros [[_ ->] | [Hle _]]; [done|]. by apply Qle_not_lt in Hle.
  - assert (¬ (0 < o)%Q) as Hle by (rewrite <- gt_spec; congruence).
    case_bool_decide; split; try done.
    + intros [[Hlt' _] | [_ ->]]; done.
    + intros []. right. split; [by apply Qnot_lt_le|]. lia.
Qed.

Lemma sign_detection_reward_witness :
  ∃ next reward done,
    (GreaterThanZeroEnv.step 1 (-1 # 3)%Q (fresh_episode 100)).1 =
      inr (next, reward, done, ∅) ∧
    (((0 < 1 # 2)%Q ∧ 1 = 1) ∨ ((1 # 2 <= 0)%Q ∧ 1 = 0) → reward = 1) ∧
    (¬ (((0 < 1 # 2)%Q ∧ 1 = 1) ∨ ((1 # 2 <= 0)%Q ∧ 1 = 0)) → reward = -1).
Proof.
  apply (sign_detection_reward (fresh_episode 100) [] [] (1 # 2)%Q [] 1 (-1 # 3)%Q).
  - by vm_compute.
  - by vm_compute.
  - by vm_compute.
  - apply valid_action. lia.
Defined.

(** With the prior observation 0.5, action 1 is rewarded +1 and action 0
    is rewarded -1. *)
Example sign_detection_reward_half :
  (GreaterThanZeroEnv.step 1 (-1 # 3)%Q (fresh_episode 100)).1 =
    inr ([(-1 # 3)%Q], 1, false, ∅) ∧
  (GreaterThanZeroEnv.step 0 (-1 # 3)%Q (fresh_episode 100)).1 =
    inr ([(-1 # 3)%Q], -1, false, ∅).
Proof. split; by vm_compute. Qed.

(** C7: in the consecutive-match environment, when the action just taken
    is 0 or 1: with fewer than 2 observations recorded (the first step of an
    episode) the reward [step] returns is +1 for action 0 and -1 otherwise;
    with the two most recent observations [o0], [o1] recorded before the
    step, it is +1 for action 1 and -1 otherwise when they are equal, and +1
    for action 0 and -1 otherwise when they differ. *)
Theorem consecutive_match_reward (s : Env TwoInARowEnv.ob) acts obss
    (action : Z) (r : nat) :
  active_actions s = inr acts →
  active_obs s = inr obss →
  curr_step s < max_steps_per_episode s →
  action ∈ [0; 1] →
  ∃ next reward done,
    (TwoInARowEnv.step action r s).1 = inr (next, reward, done, ∅) ∧
    ((length obss < 2)%nat → reward = if bool_decide (action = 0) then 1 else -1) ∧
    (∀ pre o0 o1, obss = pre ++ [o0; o1] →
       (o0 = o1 → reward = if bool_decide (action = 1) then 1 else -1) ∧
       (o0 ≠ o1 → reward = if bool_decide (action = 0) then 1 else -1)).
Proof.
  intros Ha Ho Hlt Hact.
  destruct (decide (length obss < 2)%nat) as [Hlen|Hlen].
  - destruct (env_step_reward TwoInARow s action r acts obss
      (if bool_decide (action = 0) then 1 else -1) Ha Ho Hlt Hact) as [next Hres].
    { intros s' Ha' Ho'. by apply (pobs_get_reward_first s' acts action obss). }
    exists next. eexists. eexists. split; [exact Hres|]. split; [done|].
    intros pre o0 o1 ->. rewrite length_app in Hlen. simpl in Hlen. lia.
  - destruct obss as [|o1 obss _] using rev_ind; [simpl in Hlen; lia|].
    destruct obss as [|o0 pre _] using rev_ind; [simpl in Hlen; lia|].
    rewrite <- app_assoc in *. simpl in *.
    destruct (env_step_reward TwoInARow s action r acts (pre ++ [o0; o1])
      (if bool_decide (o0 = o1)
       then if bool_decide (action = 1) then 1 else -1
       else if bool_decide (action = 0) then 1 else -1) Ha Ho Hlt Hact) as [next Hres].
    { intros s' Ha' Ho'. by apply (pobs_get_reward_later s' acts action pre o0 o1). }
    exists next. eexists. eexists. split; [exact Hres|]. split; [done|].
    intros pre' o0' o1' Heq.
    assert (pre ++ [o0; o1] = (pre ++ [o0]) ++ [o1]) as Hl by (by rewrite <- app_assoc).
    assert (pre' ++ [o0'; o1'] = (pre' ++ [o0']) ++ [o1']) as Hr by (by rewrite <- app_assoc).
    rewrite Hl, Hr in Heq.
    apply app_inj_tail in Heq as [Heq ->]. apply app_inj_tail in Heq as [_ ->].
    split; intros; by case_bool_decide.
Qed.

(** The state of the consecutive-match variant after the observations
    [[1]], [[1]] (two in a row) and [[1]], [[0]]. *)
Lemma consecutive_match_reward_witness :
  ∃ next reward done,
    (TwoInARowEnv.step 1 0%nat (mkEnv 100 0 [[[1]; [1]]] [[0]] 1)).1 =
      inr (next, reward, done, ∅) ∧
    ((length [[1]; [1]] < 2)%nat → reward = if bool_decide (1 = 0) then 1 else -1) ∧
    (∀ pre o0 o1, [[1]; [1]] = pre ++ [o0; o1] →
       (o0 = o1 → reward = if bool_decide (1 = 1) then 1 else -1) ∧
       (o0 ≠ o1 → reward = if bool_decide (1 = 0) then 1 else -1)).
Proof.
  apply (consecutive_match_reward (mkEnv 100 0 [[[1]; [1]]] [[0]] 1) [0] [[1]; [1]] 1 0%nat).
  - by vm_compute.
  - by vm_compute.
  - by vm_compute.
  - apply valid_action. lia.
Defined.

(** After [[1]], [[1]] action 1 is rewarded +1; after [[1]], [[0]] it is
    rewarded -1; on the first step of an episode action 0 is rewarded +1. *)
Example consecutive_match_reward_cases :
  (TwoInARowEnv.step 1 0%nat (mkEnv 100 0 [[[1]; [1]]] [[0]] 1)).1 = inr ([0], 1, false, ∅) ∧
  (TwoInARowEnv.step 1 0%nat (mkEnv 100 0 [[[1]; [0]]] [[0]] 1)).1 = inr ([0], -1, false, ∅) ∧
  (TwoInARowEnv.step 0 0%nat (TwoInARowEnv.reset 1%nat (init 100)).2).1 =
    inr ([0], 1, false, ∅).
Proof. repeat split; by vm_compute. Qed.

(** The first step of an episode finds one observation in the record. *)
Lemma first_step_one_observation v (s : Env (ob v)) (r : rand v) :
  well_formed s →
  ∃ o, active_obs (env_reset v r s).2 = inr [o] ∧
       active_actions (env_reset v r s).2 = inr [].
Proof.
  intros Hwf. destruct (env_reset_in_episode v r s Hwf)
    as (_ & _ & acts & obss & Ha & Ho & Hla & Hlo & _).
  destruct acts; [|done]. destruct obss as [|o [|??]]; try done. eauto.
Qed.

(** *** Invalid actions *)

(** Below the limit and with an active record, an action outside {0, 1}
    makes [step] raise [InvalidAction]; by then the action is logged and the
    step counted, and nothing else is touched. *)
Lemma env_step_invalid v (s : Env (ob v)) (action : Z) (r : rand v) acts :
  action ∉ [0; 1] →
  curr_step s < max_steps_per_episode s →
  active_actions s = inr acts →
  ∃ n, index (action_episode_memory s) (curr_episode s) = Some n ∧
       env_step v action r s = (inl (InvalidAction action), logged action n s).
Proof.
  intros Hact Hlt Ha.
  pose proof (active_no_record action_episode_memory s acts Ha) as Hna.
  destruct (env_step_outcome v action r s); simpl; try lia; try done.
  eauto.
Qed.

(** C1, as the code has it: on either variant, in a state with an active
    episode record and a step count below the limit, [step] with an action
    outside {0, 1} raises [InvalidAction] and leaves the observation memory,
    the episode index and the limit as they were. *)
Theorem invalid_action_rejected v (s : Env (ob v)) (action : Z) (r : rand v) acts :
  action ∉ [0; 1] →
  curr_step s < max_steps_per_episode s →
  active_actions s = inr acts →
  (env_step v action r s).1 = inl (InvalidAction action) ∧
  obs_episode_memory (env_step v action r s).2 = obs_episode_memory s ∧
  curr_episode (env_step v action r s).2 = curr_episode s ∧
  max_steps_per_episode (env_step v action r s).2 = max_steps_per_episode s.
Proof.
  intros Hact Hlt Ha.
  by destruct (env_step_invalid v s action r acts Hact Hlt Ha) as (n & _ & ->).
Qed.

Lemma invalid_action_rejected_witness :
  (env_step GreaterThanZero 2 (1 # 3)%Q (fresh_episode 100)).1 = inl (InvalidAction 2) ∧
  obs_episode_memory (env_step GreaterThanZero 2 (1 # 3)%Q (fresh_episode 100)).2 =
    obs_episode_memory (fresh_episode 100) ∧
  curr_episode (env_step GreaterThanZero 2 (1 # 3)%Q (fresh_episode 100)).2 =
    curr_episode (fresh_episode 100) ∧
  max_steps_per_episode (env_step GreaterThanZero 2 (1 # 3)%Q (fresh_episode 100)).2 =
    max_steps_per_episode (fresh_episode 100).
Proof.
  apply (invalid_action_rejected GreaterThanZero (fresh_episode 100) 2 (1 # 3)%Q []).
  - rewrite valid_action. lia.
  - by vm_compute.
  - by vm_compute.
Defined.

(** C1 fails as stated: right after [reset], [step(2)] raises
    [InvalidAction] with the step count moved from 0 to 1 and the action 2
    in the action log; and in an exhausted episode [step(2)] raises
    [EpisodeExhausted], not [InvalidAction]. *)
Lemma invalid_action_changes_state :
  (2 ∉ [0; 1]) ∧
  env_step GreaterThanZero 2 (1 # 3)%Q (fresh_episode 100) =
    (inl (InvalidAction 2), mkEnv 100 0 [[[(1 # 2)%Q]]] [[2]] 1) ∧
  fresh_episode 100 = mkEnv 100 0 [[[(1 # 2)%Q]]] [[]] 0 ∧
  curr_step (env_step GreaterThanZero 2 (1 # 3)%Q (fresh_episode 100)).2 ≠
    curr_step (fresh_episode 100) ∧
  active_actions (env_step GreaterThanZero 2 (1 # 3)%Q (fresh_episode 100)).2 ≠
    active_actions (fresh_episode 100) ∧
  (env_step GreaterThanZero 2 (1 # 4)%Q exhausted_episode).1 ≠ inl (InvalidAction 2).
Proof.
  split; [rewrite valid_action; lia|].
  repeat split; by vm_compute.
Qed.

(** C5, as the code has it: on either variant the limit is checked before
    the action.  For an action outside {0, 1}, [step] raises
    [EpisodeExhausted] when the episode is exhausted, and [InvalidAction]
    when the step count is below the limit and an episode record is
    active. *)
Theorem invalid_action_error_kind v (s : Env (ob v)) (action : Z) (r : rand v) :
  action ∉ [0; 1] →
  (max_steps_per_episode s ≤ curr_step s →
     (env_step v action r s).1 = inl EpisodeExhausted) ∧
  (curr_step s < max_steps_per_episode s →
     returned (active_actions s) = true →
     (env_step v action r s).1 = inl (InvalidAction action)).
Proof.
  intros Hact. split.
  - intros Hmax. by rewrite env_step_when_exhausted.
  - intros Hlt Ha. destruct (active_actions s) as [e|acts] eqn:Hacts; [done|].
    by destruct (env_step_invalid v s action r acts Hact Hlt Hacts) as (n & _ & ->).
Qed.

Lemma invalid_action_error_kind_witness :
  (env_step GreaterThanZero 2 (1 # 4)%Q exhausted_episode).1 = inl EpisodeExhausted ∧
  (env_step GreaterThanZero 2 (1 # 3)%Q (fresh_episode 100)).1 = inl (InvalidAction 2).
Proof.
  split.
  - apply (invalid_action_error_kind GreaterThanZero exhausted_episode 2 (1 # 4)%Q).
    + rewrite valid_action. lia.
    + by vm_compute.
  - apply (invalid_action_error_kind GreaterThanZero (fresh_episode 100) 2 (1 # 3)%Q).
    + rewrite valid_action. lia.
    + by vm_compute.
    + by vm_compute.
Defined.

(** C5 fails as stated: in an exhausted episode, [step(2)] raises
    [EpisodeExhausted], not [InvalidAction]. *)
Lemma invalid_action_when_exhausted :
  (2 ∉ [0; 1]) ∧
  max_steps_per_episode exhausted_episode ≤ curr_step exhausted_episode ∧
  (env_step GreaterThanZero 2 (1 # 4)%Q exhausted_episode).1 = inl EpisodeExhausted ∧
  (env_step TwoInARow 2 0%nat
     (env_step TwoInARow 0 0%nat (env_reset TwoInARow 0%nat (init 1)).2).2).1 =
    inl EpisodeExhausted ∧
  EpisodeExhausted ≠ InvalidAction 2.
Proof.
  split; [rewrite valid_action; lia|].
  repeat split; by vm_compute.
Qed.

(** ** The diagnostic report *)

(** C9, as the code has it: for every model whose [predict] leaves the
    sequence it is given as it was (any [predict], with any state of its
    own) and every [tabulate], [q_values] calls [model.predict] on the four
    sequences [[0,0]], [[1,1]], [[0,1]], [[1,0]], in that order and on
    nothing else, and leaves the environment as it was; when each of the
    four predictions has a first row, it returns the table of these rows
    under the three headers, one row per sequence labelled "0,0", "1,1",
    "0,1", "1,0", between two newlines. *)
Theorem q_values_report {value model_state}
    (predict : list (list Z) → model_state → list (list value) * model_state)
    (tabulate : list (list (TwoInARowEnv.cell value)) → list string → string)
    (w : TwoInARowEnv.World model_state) :
  TwoInARowEnv.calls (TwoInARowEnv.q_values predict tabulate w).2 =
    TwoInARowEnv.calls w ++ [[[0]; [0]]; [[1]; [1]]; [[0]; [1]]; [[1]; [0]]] ∧
  TwoInARowEnv.self (TwoInARowEnv.q_values predict tabulate w).2 = TwoInARowEnv.self w ∧
  TwoInARowEnv.model (TwoInARowEnv.q_values predict tabulate w).2 =
    (TwoInARowEnv.ask predict TwoInARowEnv.inputs (TwoInARowEnv.model w)).2 ∧
  ∀ rows,
    Forall2 (λ p row, getitem p 0 = inr row)
      (TwoInARowEnv.ask predict TwoInARowEnv.inputs (TwoInARowEnv.model w)).1 rows →
    (TwoInARowEnv.q_values predict tabulate w).1 =
      inr (nl +:+
           tabulate
             (zip_with TwoInARowEnv.table_row ["0,0"; "1,1"; "0,1"; "1,0"]%string rows)
             ["Obs. Seq"; "Action 0"; "Action 1"]%string +:+
           nl)%string.
Proof.
  unfold TwoInARowEnv.q_values, TwoInARowEnv.inputs. simpl TwoInARowEnv.ask.
  destruct (predict [[0]; [0]] (TwoInARowEnv.model w)) as [p0 m0] eqn:E0.
  destruct (predict [[1]; [1]] m0) as [p1 m1] eqn:E1.
  destruct (predict [[0]; [1]] m1) as [p2 m2] eqn:E2.
  destruct (predict [[1]; [0]] m2) as [p3 m3] eqn:E3.
  unfold mbind, M_bind, bind. simpl mapM.
  unfold mbind, M_bind, bind, TwoInARowEnv.model_predict, mret, M_ret, ret. simpl.
  rewrite E0. simpl. rewrite E1. simpl. rewrite E2. simpl. rewrite E3. simpl.
  split; [|split; [|split]].
  - destruct (getitem p0 0), (getitem p1 0), (getitem p2 0), (getitem p3 0);
      simpl; by rewrite <- !app_assoc.
  - by destruct (getitem p0 0), (getitem p1 0), (getitem p2 0), (getitem p3 0).
  - by destruct (getitem p0 0), (getitem p1 0), (getitem p2 0), (getitem p3 0).
  - intros rows Hrows.
    apply Forall2_cons_inv_l in Hrows as (row0 & rows0 & -> & Hrows & ->).
    apply Forall2_cons_inv_l in Hrows as (row1 & rows1 & -> & Hrows & ->).
    apply Forall2_cons_inv_l in Hrows as (row2 & rows2 & -> & Hrows & ->).
    apply Forall2_cons_inv_l in Hrows as (row3 & rows3 & -> & Hrows & ->).
    apply Forall2_nil_inv_l in Hrows as ->. done.
Qed.

(** A model that counts its calls and predicts its counter for action 0. *)
Lemma q_values_report_witness :
  (TwoInARowEnv.q_values
     (λ (_ : list (list Z)) (m : nat), ([[Z.of_nat m; 7]], S m))
     (λ data _, String.concat ";" ((λ row, pretty (length row)) <$> data))
     (TwoInARowEnv.mkWorld (init 100) 0%nat [])).1 =
  inr (nl +:+ "3;3;3;3" +:+ nl)%string.
Proof.
  refine (proj2 (proj2 (proj2 (q_values_report
    (λ (_ : list (list Z)) (m : nat), ([[Z.of_nat m; 7]], S m))
    (λ data _, String.concat ";" ((λ row, pretty (length row)) <$> data))
    (TwoInARowEnv.mkWorld (init 100) 0%nat []))))
    [[0; 7]; [1; 7]; [2; 7]; [3; 7]] _).
  repeat constructor.
Defined.

(** C9 fails as stated: a model whose predictions are empty batches is
    asked the four sequences, and then [preds[i][0]] raises [IndexError]:
    [q_values] returns no table. *)
Lemma q_values_without_first_row :
  (TwoInARowEnv.q_values
     (λ (_ : list (list Z)) (m : nat), (([] : list (list Z)), S m))
     (λ _ _, "table"%string)
     (TwoInARowEnv.mkWorld (init 100) 0%nat [])).1 = inl IndexError ∧
  (∀ table : string,
     (TwoInARowEnv.q_values
        (λ (_ : list (list Z)) (m : nat), (([] : list (list Z)), S m))
        (λ _ _, "table"%string)
        (TwoInARowEnv.mkWorld (init 100) 0%nat [])).1 ≠ inr table) ∧
  TwoInARowEnv.calls
    (TwoInARowEnv.q_values
       (λ (_ : list (list Z)) (m : nat), (([] : list (list Z)), S m))
       (λ _ _, "table"%string)
       (TwoInARowEnv.mkWorld (init 100) 0%nat [])).2 =
    [[[0]; [0]]; [[1]; [1]]; [[0]; [1]]; [[1]; [0]]].
Proof.
  assert ((TwoInARowEnv.q_values
     (λ (_ : list (list Z)) (m : nat), (([] : list (list Z)), S m))
     (λ _ _, "table"%string)
     (TwoInARowEnv.mkWorld (init 100) 0%nat [])).1 = inl IndexError) as Hraise
    by (by vm_compute).
  split; [exact Hraise|]. split.
  - intros table Htable. rewrite Hraise in Htable. discriminate.
  - by vm_compute.
Qed.

(** ** Further properties of the two environments *)

(** *** What [step] and [reset] keep *)

Lemma env_step_lengths v (s : Env (ob v)) action r :
  length (action_episode_memory (env_step v action r s).2) =
    length (action_episode_memory s) ∧
  length (obs_episode_memory (env_step v action r s).2) =
    length (obs_episode_memory s).
Proof.
  destruct (env_step_outcome v action r s); simpl; by rewrite ?length_alter.
Qed.

Lemma env_step_curr_step_mono v (s : Env (ob v)) action r :
  curr_step s ≤ curr_step (env_step v action r s).2.
Proof. destruct (env_step_outcome v action r s); simpl; lia. Qed.

Lemma run_curr_step_nonneg v (cs : list (call v)) s :
  0 ≤ curr_step s → 0 ≤ curr_step (run cs s).
Proof.
  revert s. induction cs as [|c cs IH]; intros s Hs; [done|].
  simpl. apply IH. destruct c as [r|action r]; simpl.
  - by destruct (env_reset_returns v r s) as (o & _ & ->).
  - pose proof (env_step_curr_step_mono v s action r). lia.
Qed.

(** X2: with a limit that is zero or negative no [step] is ever taken: on
    either variant, after any calls on an environment created with
    [max_steps_per_episode <= 0], [step] raises [EpisodeExhausted] and
    changes nothing. *)
Theorem no_step_without_positive_limit v (max_steps : Z) (cs : list (call v))
    (action : Z) (r : rand v) :
  max_steps ≤ 0 →
  env_step v action r (run cs (init max_steps)) =
    (inl EpisodeExhausted, run cs (init max_steps)).
Proof.
  intros Hmax. apply env_step_when_exhausted.
  rewrite run_max_steps. simpl.
  pose proof (run_curr_step_nonneg v cs (init max_steps)) as Hpos.
  simpl in Hpos. lia.
Qed.

Lemma no_step_without_positive_limit_witness :
  0 ≤ 0 ∧
  env_step TwoInARow 1 0%nat (run sample_calls (init 0)) =
    (inl EpisodeExhausted, run sample_calls (init 0)).
Proof.
  split; [lia|].
  apply (no_step_without_positive_limit TwoInARow 0 sample_calls 1 0%nat). lia.
Defined.

(** X1: before any [reset] there is no record to log into: with empty
    memories and a step count below the limit, [step] raises [IndexError];
    the step is counted all the same and nothing else changes. *)
Theorem step_before_reset v (s : Env (ob v)) (action : Z) (r : rand v) :
  action_episode_memory s = [] →
  curr_step s < max_steps_per_episode s →
  env_step v action r s = (inl IndexError, set_curr_step (λ n, n + 1) s).
Proof.
  intros Hmem Hlt.
  assert (index (action_episode_memory s) (curr_episode s) = None) as Hnone.
  { rewrite Hmem. apply index_None. simpl. lia. }
  destruct (env_step_outcome v action r s); simpl; try lia; try congruence.
Qed.

Lemma step_before_reset_witness :
  env_step GreaterThanZero 1 (1 # 2)%Q (init 100) =
    (inl IndexError, set_curr_step (λ n, n + 1) (init 100)).
Proof.
  apply (step_before_reset GreaterThanZero (init 100) 1 (1 # 2)%Q).
  - reflexivity.
  - by vm_compute.
Defined.

Lemma run_lengths v (cs : list (call v)) s :
  length (action_episode_memory (run cs s)) =
    (length (action_episode_memory s) + resets cs)%nat ∧
  length (obs_episode_memory (run cs s)) =
    (length (obs_episode_memory s) + resets cs)%nat ∧
  curr_episode (run cs s) = curr_episode s + Z.of_nat (resets cs).
Proof.
  revert s. induction cs as [|c cs IH]; intros s.
  { simpl. repeat split; lia. }
  simpl run. destruct (IH (do_call c s)) as (-> & -> & ->).
  destruct c as [r|action r]; simpl.
  - destruct (env_reset_returns v r s) as (o & _ & ->). simpl.
    rewrite !length_app. simpl. repeat split; lia.
  - destruct (env_step_lengths v s action r) as [-> ->].
    rewrite (outcome_curr_episode _ _ _ _ _ _ (env_step_outcome v action r s)).
    done.
Qed.

(** X3: records are only ever added, one per [reset]: on either variant,
    after any calls on a new environment, each of the two memories holds as
    many records as there were [reset] calls, and [curr_episode] is that
    number minus one, whatever [step] calls returned or raised in between. *)
Theorem one_record_per_reset v (max_steps : Z) (cs : list (call v)) :
  length (action_episode_memory (run cs (init max_steps))) = resets cs ∧
  length (obs_episode_memory (run cs (init max_steps))) = resets cs ∧
  curr_episode (run cs (init max_steps)) = Z.of_nat (resets cs) - 1.
Proof.
  destruct (run_lengths v cs (init max_steps)) as (-> & -> & ->).
  simpl. repeat split; lia.
Qed.

(** *** Earlier episodes *)

Lemma well_formed_index {ob} (s : Env ob) n :
  well_formed s →
  index (action_episode_memory s) (curr_episode s) = Some n ∨
  index (obs_episode_memory s) (curr_episode s) = Some n →
  Z.of_nat n = curr_episode s.
Proof.
  intros [Hce Hlen] [Hn|Hn]; apply index_Some in Hn as [Hlt Hn]; lia.
Qed.

Lemma do_call_frozen v (c : call v) s j :
  well_formed s →
  Z.of_nat j < curr_episode s →
  obs_episode_memory (do_call c s) !! j = obs_episode_memory s !! j ∧
  action_episode_memory (do_call c s) !! j = action_episode_memory s !! j ∧
  curr_episode s ≤ curr_episode (do_call c s).
Proof.
  intros Hwf Hj. pose proof Hwf as [Hce Hlen]. destruct c as [r|action r]; simpl.
  - destruct (env_reset_returns v r s) as (o & _ & ->). simpl.
    rewrite !lookup_app_l by lia. repeat split; lia.
  - destruct (env_step_outcome v action r s)
      as [?|?|n ? Hn|n ? ? Hn|n ? ? ? Hn|n ? ? ? Hn|n m ? ? ? Hn ? ? ? Hm]; simpl;
      try (repeat split; reflexivity || lia).
    all: pose proof (well_formed_index s n Hwf (or_introl Hn)).
    all: try pose proof (well_formed_index s m Hwf (or_intror Hm)).
    all: rewrite ?list_lookup_alter_ne by lia; repeat split; lia.
Qed.

Lemma run_frozen v (cs : list (call v)) s j :
  well_formed s →
  Z.of_nat j < curr_episode s →
  obs_episode_memory (run cs s) !! j = obs_episode_memory s !! j ∧
  action_episode_memory (run cs s) !! j = action_episode_memory s !! j.
Proof.
  revert s. induction cs as [|c cs IH]; intros s Hwf Hj; [done|].
  simpl. destruct (do_call_frozen v c s j Hwf Hj) as (Ho & Ha & Hle).
  destruct (IH (do_call c s)) as [-> ->]; [by apply do_call_well_formed|lia|done].
Qed.

(** X4: a [reset] closes every record made so far: on either variant,
    whatever calls follow a [reset], the observation and action records that
    were in the memories before it, the one of the abandoned episode
    included, stay exactly as they were. *)
Theorem earlier_records_frozen v (max_steps : Z) (cs0 : list (call v)) (r : rand v)
    (cs : list (call v)) (j : nat) :
  (j < length (obs_episode_memory (run cs0 (init max_steps))))%nat →
  obs_episode_memory (run cs (env_reset v r (run cs0 (init max_steps))).2) !! j =
    obs_episode_memory (run cs0 (init max_steps)) !! j ∧
  action_episode_memory (run cs (env_reset v r (run cs0 (init max_steps))).2) !! j =
    action_episode_memory (run cs0 (init max_steps)) !! j.
Proof.
  intros Hj.
  pose proof (run_well_formed v cs0 _ (init_well_formed max_steps)) as Hwf.
  pose proof Hwf as [Hce Hlen].
  pose proof (do_call_well_formed v (CallReset r) _ Hwf) as Hwf1. simpl in Hwf1.
  destruct (run_frozen v cs (env_reset v r (run cs0 (init max_steps))).2 j Hwf1)
    as [-> ->].
  - destruct (env_reset_returns v r (run cs0 (init max_steps))) as (o & _ & ->).
    simpl. lia.
  - destruct (env_reset_returns v r (run cs0 (init max_steps))) as (o & _ & ->).
    simpl. by rewrite !lookup_app_l by lia.
Qed.

Lemma earlier_records_frozen_witness :
  obs_episode_memory
    (run [@CallStep GreaterThanZero 0 (4 # 7)%Q; @CallStep GreaterThanZero 9 (1 # 9)%Q]
       (env_reset GreaterThanZero (3 # 4)%Q (run two_episodes (init 3))).2) !! 1%nat =
    obs_episode_memory (run two_episodes (init 3)) !! 1%nat ∧
  action_episode_memory
    (run [@CallStep GreaterThanZero 0 (4 # 7)%Q; @CallStep GreaterThanZero 9 (1 # 9)%Q]
       (env_reset GreaterThanZero (3 # 4)%Q (run two_episodes (init 3))).2) !! 1%nat =
    action_episode_memory (run two_episodes (init 3)) !! 1%nat.
Proof.
  apply (earlier_records_frozen GreaterThanZero 3 two_episodes (3 # 4)%Q
    [@CallStep GreaterThanZero 0 (4 # 7)%Q; @CallStep GreaterThanZero 9 (1 # 9)%Q] 1).
  vm_compute. lia.
Defined.

(** *** Once [reset] has been called *)

Lemma in_episode_started {ob} (ok : ob → Prop) k (s : Env ob) :
  in_episode ok k s → started ok s.
Proof.
  intros (Hwf & Hk & acts & obss & Ha & Ho & Hla & Hlo & Hok).
  split; [done|]. exists acts, obss. repeat split; try done; lia.
Qed.

Lemma env_step_started v (s : Env (ob v)) action r :
  started (ob_ok v) s → started (ob_ok v) (env_step v action r s).2.
Proof.
  intros (Hwf & acts & obss & Ha & Ho & Hla & Hlo & Hok).
  pose proof (env_step_outcome v action r s) as Hout.
  split; [by apply (outcome_well_formed _ _ _ _ _ _ Hout)|].
  pose proof (active_no_record action_episode_memory s acts Ha) as Hna.
  destruct Hout as [?|?|n ? Hn|n ? ? Hn|n ? ? ? Hn|n ? ? ? Hn|n m ? o ? Hn ? ? Hobs Hm];
    simpl fst; simpl snd; try done.
  1: by exists acts, obss.
  1-4: exists (acts ++ [action]), obss;
       rewrite (active_actions_logged s action n acts) by done;
       rewrite length_app; simpl; repeat split; try done; lia.
  exists (acts ++ [action]), (obss ++ [o]).
  destruct (env_get_obs_returns v r (logged action n s)) as (o' & Ho' & Hok' & _).
  assert (o' = o) as -> by congruence.
  apply getitem_inr in Ho as (m' & Hm' & Hobss).
  assert (m' = m) as -> by congruence.
  split.
  { apply getitem_inr in Ha as (n' & Hn' & Hacts).
    assert (n' = n) as -> by congruence.
    unfold active_actions. simpl. by rewrite (getitem_alter _ _ _ _ acts). }
  split.
  { unfold active_obs. simpl. by rewrite (getitem_alter _ _ _ _ obss). }
  rewrite !length_app. simpl. repeat split; try lia.
  apply Forall_app. split; [done|by constructor].
Qed.

Lemma do_call_started v (c : call v) s :
  well_formed s → (∀ action r, c = CallStep action r → started (ob_ok v) s) →
  started (ob_ok v) (do_call c s).
Proof.
  intros Hwf Hs. destruct c as [r|action r]; simpl.
  - eapply in_episode_started. by apply env_reset_in_episode.
  - apply env_step_started. by eapply Hs.
Qed.

Lemma run_started v (cs : list (call v)) s :
  started (ob_ok v) s → started (ob_ok v) (run cs s).
Proof.
  revert s. induction cs as [|c cs IH]; intros s Hs; [done|].
  simpl. apply IH. apply do_call_started; [by destruct Hs|done].
Qed.

Lemma reset_then_run_started v (max_steps : Z) (cs0 : list (call v)) (r : rand v)
    (cs : list (call v)) :
  started (ob_ok v) (run cs (env_reset v r (run cs0 (init max_steps))).2).
Proof.
  apply run_started. eapply in_episode_started. apply env_reset_in_episode.
  apply run_well_formed, init_well_formed.
Qed.

(** X5: the logs of the active record and the step counter: on either
    variant, at any point after a [reset], the active record exists, its
    action log has exactly [curr_step] entries (a rejected action is logged
    and counted like one that is taken), and its observation log has at
    least one entry and at most one more than the action log. *)
Theorem action_log_counts_steps v (max_steps : Z) (cs0 : list (call v)) (r : rand v)
    (cs : list (call v)) :
  ∃ acts obss,
    active_actions (run cs (env_reset v r (run cs0 (init max_steps))).2) = inr acts ∧
    active_obs (run cs (env_reset v r (run cs0 (init max_steps))).2) = inr obss ∧
    Z.of_nat (length acts) =
      curr_step (run cs (env_reset v r (run cs0 (init max_steps))).2) ∧
    (1 ≤ length obss ≤ length acts + 1)%nat.
Proof.
  destruct (reset_then_run_started v max_steps cs0 r cs)
    as (_ & acts & obss & Ha & Ho & Hla & Hlo & _).
  by exists acts, obss.
Qed.

Lemma env_step_started_returns v (s : Env (ob v)) action r :
  started (ob_ok v) s →
  curr_step s < max_steps_per_episode s →
  action ∈ [0; 1] →
  ∃ o reward,
    (env_step v action r s).1 =
      inr (o, reward, bool_decide (curr_step s + 1 >= max_steps_per_episode s), ∅).
Proof.
  intros (Hwf & acts & obss & Ha & Ho & Hla & Hlo & Hok) Hlt Hact.
  pose proof (active_no_record action_episode_memory s acts Ha) as Hna.
  pose proof (active_no_record obs_episode_memory s obss Ho) as Hno.
  assert (∀ n, index (action_episode_memory s) (curr_episode s) = Some n →
    ∃ reward, env_get_reward v (logged action n s) = (inr reward, logged action n s))
    as Hreward.
  { intros n Hn. apply (env_get_reward_returns v _ (acts ++ [action]) obss).
    - by apply active_actions_logged.
    - by destruct acts.
    - done.
    - destruct obss; [simpl in Hlo; lia|done].
    - done. }
  destruct (env_step_outcome v action r s)
    as [?|?|n ? ? ?|n e ? Hn ? Hrw|n rw e ? Hn ? Hrw Hobs|n rw o|n m rw o ? Hn ? Hrw];
    simpl; try lia; try done.
  - destruct (Hreward n Hn) as [reward Hreward']. congruence.
  - destruct (env_get_obs_returns v r (logged action n s)) as (o & Hobs' & _). congruence.
  - eauto.
Qed.

(** X6: what decides the result of [step] once [reset] has been called: on
    either variant, [step] raises [EpisodeExhausted] when the step count has
    reached the limit; below the limit it raises [InvalidAction] for an
    action outside {0, 1} and returns, with [done] computed from the
    incremented count, for 0 and 1.  It raises nothing else: no
    [IndexError]. *)
Theorem step_result_after_reset v (max_steps : Z) (cs0 : list (call v)) (r0 : rand v)
    (cs : list (call v)) (action : Z) (r : rand v) :
  (max_steps ≤ curr_step (run cs (env_reset v r0 (run cs0 (init max_steps))).2) ∧
   (env_step v action r (run cs (env_reset v r0 (run cs0 (init max_steps))).2)).1 =
     inl EpisodeExhausted) ∨
  (curr_step (run cs (env_reset v r0 (run cs0 (init max_steps))).2) < max_steps ∧
   (action ∉ [0; 1]) ∧
   (env_step v action r (run cs (env_reset v r0 (run cs0 (init max_steps))).2)).1 =
     inl (InvalidAction action)) ∨
  (curr_step (run cs (env_reset v r0 (run cs0 (init max_steps))).2) < max_steps ∧
   action ∈ [0; 1] ∧
   ∃ o reward,
     (env_step v action r (run cs (env_reset v r0 (run cs0 (init max_steps))).2)).1 =
       inr (o, reward,
            bool_decide
              (curr_step (run cs (env_reset v r0 (run cs0 (init max_steps))).2) + 1
               >= max_steps), ∅)).
Proof.
  pose proof (reset_then_run_started v max_steps cs0 r0 cs) as Hs.
  assert (max_steps_per_episode (run cs (env_reset v r0 (run cs0 (init max_steps))).2)
          = max_steps) as Hmax.
  { rewrite run_max_steps.
    destruct (env_reset_returns v r0 (run cs0 (init max_steps))) as (o & _ & ->).
    simpl. by rewrite run_max_steps. }
  set (s := run cs (env_reset v r0 (run cs0 (init max_steps))).2) in *.
  destruct (decide (max_steps ≤ curr_step s)) as [Hge|Hlt].
  { left. split; [done|]. rewrite env_step_when_exhausted; [done|lia]. }
  right. destruct (decide (action ∈ [0; 1])) as [Hact|Hact].
  - right. split; [lia|]. split; [done|].
    destruct (env_step_started_returns v s action r Hs ltac:(lia) Hact)
      as (o & reward & Hres).
    exists o, reward. by rewrite Hmax in Hres.
  - left. split; [lia|]. split; [done|].
    destruct Hs as (_ & acts & _ & Ha & _).
    by destruct (env_step_invalid v s action r acts Hact ltac:(lia) Ha) as (n & _ & ->).
Qed.

(** *** What a call leaves in the logs *)

(** X7: a rejected action is logged and counted: on either variant, below
    the limit and with an active record, [step] with an action outside
    {0, 1} raises [InvalidAction] after it has appended the action to the
    active action log and added one to the step count; no observation is
    generated or logged. *)
Theorem rejected_action_logged v (s : Env (ob v)) (action : Z) (r : rand v) acts :
  action ∉ [0; 1] →
  curr_step s < max_steps_per_episode s →
  active_actions s = inr acts →
  (env_step v action r s).1 = inl (InvalidAction action) ∧
  active_actions (env_step v action r s).2 = inr (acts ++ [action]) ∧
  curr_step (env_step v action r s).2 = curr_step s + 1 ∧
  active_obs (env_step v action r s).2 = active_obs s.
Proof.
  intros Hact Hlt Ha.
  destruct (env_step_invalid v s action r acts Hact Hlt Ha) as (n & Hn & ->).
  simpl. split; [done|]. split; [by apply active_actions_logged|done].
Qed.

Lemma rejected_action_logged_witness :
  (env_step GreaterThanZero 2 (1 # 3)%Q (fresh_episode 100)).1 = inl (InvalidAction 2) ∧
  active_actions (env_step GreaterThanZero 2 (1 # 3)%Q (fresh_episode 100)).2 =
    inr ([] ++ [2]) ∧
  curr_step (env_step GreaterThanZero 2 (1 # 3)%Q (fresh_episode 100)).2 =
    curr_step (fresh_episode 100) + 1 ∧
  active_obs (env_step GreaterThanZero 2 (1 # 3)%Q (fresh_episode 100)).2 =
    active_obs (fresh_episode 100).
Proof.
  apply (rejected_action_logged GreaterThanZero (fresh_episode 100) 2 (1 # 3)%Q []).
  - rewrite valid_action. lia.
  - by vm_compute.
  - by vm_compute.
Defined.

(** X8: what a returning [step] writes: on either variant and in any
    state, when [step] returns an observation, the active record existed,
    the action is appended to its action log and the returned observation to
    its observation log, the step count is one more, and the episode index
    and the limit are as before. *)
Theorem returned_step_logged v (s : Env (ob v)) (action : Z) (r : rand v)
    o reward done inf :
  (env_step v action r s).1 = inr (o, reward, done, inf) →
  ∃ acts obss,
    active_actions s = inr acts ∧ active_obs s = inr obss ∧
    active_actions (env_step v action r s).2 = inr (acts ++ [action]) ∧
    active_obs (env_step v action r s).2 = inr (obss ++ [o]) ∧
    curr_step (env_step v action r s).2 = curr_step s + 1 ∧
    curr_episode (env_step v action r s).2 = curr_episode s ∧
    max_steps_per_episode (env_step v action r s).2 = max_steps_per_episode s.
Proof.
  intros Hres.
  destruct (env_step_outcome v action r s)
    as [?|?|?|?|?|?|n m rw o' ? Hn ? ? ? Hm]; simpl in Hres; try discriminate.
  injection Hres as -> -> _ _.
  destruct (getitem_index _ _ _ Hn) as (acts & Hacts & Ha).
  destruct (getitem_index _ _ _ Hm) as (obss & Hobss & Ho).
  exists acts, obss. unfold active_actions, active_obs. simpl.
  rewrite (getitem_alter _ _ _ _ acts), (getitem_alter _ _ _ _ obss) by done.
  done.
Qed.

Lemma returned_step_logged_witness :
  ∃ acts obss,
    active_actions (fresh_episode 100) = inr acts ∧
    active_obs (fresh_episode 100) = inr obss ∧
    active_actions (env_step GreaterThanZero 1 (-1 # 3)%Q (fresh_episode 100)).2 =
      inr (acts ++ [1]) ∧
    active_obs (env_step GreaterThanZero 1 (-1 # 3)%Q (fresh_episode 100)).2 =
      inr (obss ++ [[(-1 # 3)%Q]]) ∧
    curr_step (env_step GreaterThanZero 1 (-1 # 3)%Q (fresh_episode 100)).2 =
      curr_step (fresh_episode 100) + 1 ∧
    curr_episode (env_step GreaterThanZero 1 (-1 # 3)%Q (fresh_episode 100)).2 =
      curr_episode (fresh_episode 100) ∧
    max_steps_per_episode (env_step GreaterThanZero 1 (-1 # 3)%Q (fresh_episode 100)).2 =
      max_steps_per_episode (fresh_episode 100).
Proof.
  apply (returned_step_logged GreaterThanZero (fresh_episode 100) 1 (-1 # 3)%Q
    [(-1 # 3)%Q] 1 false ∅).
  by vm_compute.
Defined.

(** *** What [step] returns *)

Lemma env_get_reward_values v (s : Env (ob v)) reward :
  (env_get_reward v s).1 = inr reward → reward = 1 ∨ reward = -1.
Proof.
  destruct v; simpl.
  - unfold GreaterThanZeroEnv._get_reward, mbind, M_bind, bind, eval, lift, mret, M_ret, ret.
    intros H. repeat (case_match; simplify_eq/=); auto.
  - unfold TwoInARowEnv._get_reward, mbind, M_bind, bind, eval, lift, mret, M_ret, ret.
    intros H. repeat (case_match; simplify_eq/=); auto.
Qed.

(** X9: the values of a returning [step]: on either variant and in any
    state, when [step] returns, the reward is +1 or -1, the observation is
    one the generator of the variant produces from the sample of the call,
    [done] tells whether the incremented step count has reached the limit,
    and the [info] dictionary is empty. *)
Theorem returned_step_values v (s : Env (ob v)) (action : Z) (r : rand v)
    o reward done inf :
  (env_step v action r s).1 = inr (o, reward, done, inf) →
  (reward = 1 ∨ reward = -1) ∧
  generated v r o ∧
  done = bool_decide (curr_step s + 1 >= max_steps_per_episode s) ∧
  inf = ∅ ∧
  action ∈ [0; 1] ∧
  curr_step s < max_steps_per_episode s.
Proof.
  intros Hres.
  destruct (env_step_outcome v action r s)
    as [?|?|?|?|?|?|n m rw o' ? Hn ? Hrw Hobs Hm]; simpl in Hres; try discriminate.
  injection Hres as -> -> <- <-.
  destruct (env_get_obs_returns v r (logged action n s)) as (o' & Ho' & _ & Hgen).
  assert (o' = o) as -> by congruence.
  repeat split; try done.
  apply (env_get_reward_values v (logged action n s)). by rewrite Hrw.
Qed.

Lemma returned_step_values_witness :
  ((-1 = 1 ∨ -1 = -1) ∧
   generated TwoInARow 3%nat [1] ∧
   true = bool_decide (curr_step (mkEnv 2 0 [[[1]; [0]]] [[0]] 1 : Env (ob TwoInARow)) + 1
                       >= max_steps_per_episode
                            (mkEnv 2 0 [[[1]; [0]]] [[0]] 1 : Env (ob TwoInARow))) ∧
   (∅ : info) = ∅ ∧
   1 ∈ [0; 1] ∧
   curr_step (mkEnv 2 0 [[[1]; [0]]] [[0]] 1 : Env (ob TwoInARow)) <
     max_steps_per_episode (mkEnv 2 0 [[[1]; [0]]] [[0]] 1 : Env (ob TwoInARow))).
Proof.
  apply (returned_step_values TwoInARow (mkEnv 2 0 [[[1]; [0]]] [[0]] 1) 1 3%nat
    [1] (-1) true ∅).
  by vm_compute.
Defined.

(** X11: an episode that is done stays closed: on either variant and in any
    state, after a [step] that returned [done = True], every further [step]
    raises [EpisodeExhausted] and changes nothing, whatever its action. *)
Theorem step_after_done_returned v (s : Env (ob v)) (action : Z) (r : rand v)
    o reward inf (action' : Z) (r' : rand v) :
  (env_step v action r s).1 = inr (o, reward, true, inf) →
  env_step v action' r' (env_step v action r s).2 =
    (inl EpisodeExhausted, (env_step v action r s).2).
Proof.
  intros Hres. apply env_step_when_exhausted.
  by eapply done_leaves_exhausted.
Qed.

Lemma step_after_done_returned_witness :
  env_step GreaterThanZero 0 (1 # 7)%Q
    (env_step GreaterThanZero 1 (-1 # 3)%Q (fresh_episode 1)).2 =
  (inl EpisodeExhausted, (env_step GreaterThanZero 1 (-1 # 3)%Q (fresh_episode 1)).2).
Proof.
  apply (step_after_done_returned GreaterThanZero (fresh_episode 1) 1 (-1 # 3)%Q
    [(-1 # 3)%Q] 1 ∅ 0 (1 # 7)%Q).
  by vm_compute.
Defined.

Lemma env_get_obs_state_free v (r : rand v) (s s' : Env (ob v)) :
  (env_get_obs v r s).1 = (env_get_obs v r s').1.
Proof.
  destruct v; [done|]. simpl.
  unfold TwoInARowEnv._get_obs, mbind, M_bind, bind, lift.
  by destruct (random_choice [0; 1] r).
Qed.

Lemma env_reward_pair v acts (obss : list (ob v)) :
  obss ≠ [] → Forall (ob_ok v) obss →
  ∃ reward,
    (∀ s', active_actions s' = inr (acts ++ [0]) → active_obs s' = inr obss →
           env_get_reward v s' = (inr reward, s')) ∧
    (∀ s', active_actions s' = inr (acts ++ [1]) → active_obs s' = inr obss →
           env_get_reward v s' = (inr (- reward), s')).
Proof.
  intros Hne Hok. destruct (exists_last Hne) as (obss' & o & ->).
  destruct v; simpl in *.
  - apply Forall_app in Hok as [_ Hok]. apply Forall_inv in Hok.
    destruct o as [|x rest]; [exfalso; by apply Hok|].
    exists (if gt x 0 then -1 else 1). split; intros s' Ha Ho.
    + rewrite (fobs_get_reward s' acts 0 obss' x rest Ha Ho). by destruct (gt x 0).
    + rewrite (fobs_get_reward s' acts 1 obss' x rest Ha Ho). by destruct (gt x 0).
  - destruct obss' as [|o' pre _] using rev_ind.
    + exists 1. split; intros s' Ha Ho.
      * by rewrite (pobs_get_reward_first s' acts 0 [o] Ha Ho ltac:(simpl; lia)).
      * by rewrite (pobs_get_reward_first s' acts 1 [o] Ha Ho ltac:(simpl; lia)).
    + exists (if bool_decide (o' = o) then -1 else 1).
      split; intros s' Ha Ho; rewrite <- app_assoc in Ho; simpl in Ho.
      * rewrite (pobs_get_reward_later s' acts 0 pre o' o Ha Ho). by case_bool_decide.
      * rewrite (pobs_get_reward_later s' acts 1 pre o' o Ha Ho). by case_bool_decide.
Qed.

(** X10: the two actions are rewarded oppositely: on either variant, at any
    point after a [reset] where the step count is below the limit, [step]
    returns for action 0 and for action 1 alike, with the same observation
    (for the same sample) and the same [done] flag, and with rewards that
    are the negative of each other. *)
Theorem opposite_rewards v (max_steps : Z) (cs0 : list (call v)) (r0 : rand v)
    (cs : list (call v)) (r : rand v) :
  curr_step (run cs (env_reset v r0 (run cs0 (init max_steps))).2) < max_steps →
  ∃ o reward done,
    (reward = 1 ∨ reward = -1) ∧
    (env_step v 0 r (run cs (env_reset v r0 (run cs0 (init max_steps))).2)).1 =
      inr (o, reward, done, ∅) ∧
    (env_step v 1 r (run cs (env_reset v r0 (run cs0 (init max_steps))).2)).1 =
      inr (o, - reward, done, ∅).
Proof.
  intros Hlt.
  destruct (reset_then_run_started v max_steps cs0 r0 cs)
    as (_ & acts & obss & Ha & Ho & _ & Hlo & Hok).
  assert (max_steps_per_episode (run cs (env_reset v r0 (run cs0 (init max_steps))).2)
          = max_steps) as Hmax.
  { rewrite run_max_steps.
    destruct (env_reset_returns v r0 (run cs0 (init max_steps))) as (o & _ & ->).
    simpl. by rewrite run_max_steps. }
  set (s := run cs (env_reset v r0 (run cs0 (init max_steps))).2) in *.
  destruct (env_reward_pair v acts obss) as (reward & Hr0 & Hr1);
    [destruct obss; [simpl in Hlo; lia|done]|done|].
  destruct (env_step_reward v s 0 r acts obss reward Ha Ho ltac:(lia)
    ltac:(apply valid_action; lia) Hr0) as [o0 Hres0].
  destruct (env_step_reward v s 1 r acts obss (- reward) Ha Ho ltac:(lia)
    ltac:(apply valid_action; lia) Hr1) as [o1 Hres1].
  assert (o1 = o0) as ->.
  { destruct (env_step_outcome v 0 r s)
      as [?|?|?|?|?|?|n0 m0 rw0 o0' ? ? ? ? Hobs0 ?]; simpl in Hres0; try discriminate.
    destruct (env_step_outcome v 1 r s)
      as [?|?|?|?|?|?|n1 m1 rw1 o1' ? ? ? ? Hobs1 ?]; simpl in Hres1; try discriminate.
    pose proof (env_get_obs_state_free v r (logged 0 n0 s) (logged 1 n1 s)) as Hfree.
    rewrite Hobs0, Hobs1 in Hfree. simpl in Hfree. congruence. }
  exists o0, reward, (bool_decide (curr_step s + 1 >= max_steps_per_episode s)).
  split; [|by split].
  destruct (env_step_outcome v 0 r s)
    as [?|?|?|?|?|?|n0 m0 rw0 o0' ? ? ? Hrw0 ? ?]; simpl in Hres0; try discriminate.
  apply (env_get_reward_values v (logged 0 n0 s)). rewrite Hrw0. simpl. congruence.
Qed.

Lemma opposite_rewards_witness :
  ∃ o reward done,
    (reward = 1 ∨ reward = -1) ∧
    (env_step GreaterThanZero 0 (1 # 9)%Q
       (run [] (env_reset GreaterThanZero (3 # 4)%Q (run two_episodes (init 3))).2)).1 =
      inr (o, reward, done, ∅) ∧
    (env_step GreaterThanZero 1 (1 # 9)%Q
       (run [] (env_reset GreaterThanZero (3 # 4)%Q (run two_episodes (init 3))).2)).1 =
      inr (o, - reward, done, ∅).
Proof.
  apply (opposite_rewards GreaterThanZero 3 two_episodes (3 # 4)%Q [] (1 # 9)%Q).
  by vm_compute.
Defined.

(** *** [q_values] on a model that predicts nothing *)

Lemma getitem_nil {A} (i : Z) : getitem ([] : list A) i = inl IndexError.
Proof.
  unfold getitem. replace (index [] i) with (@None nat); [done|].
  symmetry. apply index_None. simpl. lia.
Qed.

Lemma getitem_inl {A} (l : list A) (i : Z) e : getitem l i = inl e → e = IndexError.
Proof. unfold getitem. case_match; congruence. Qed.

(** X12: [q_values] does not check what the model returns: when one of the
    four predictions is an empty batch, [preds[i][0]] raises [IndexError]
    and no table is returned; by then the model has been asked all four
    sequences. *)
Theorem q_values_empty_prediction {value model_state}
    (predict : list (list Z) → model_state → list (list value) * model_state)
    (tabulate : list (list (TwoInARowEnv.cell value)) → list string → string)
    (w : TwoInARowEnv.World model_state) :
  [] ∈ (TwoInARowEnv.ask predict TwoInARowEnv.inputs (TwoInARowEnv.model w)).1 →
  (TwoInARowEnv.q_values predict tabulate w).1 = inl IndexError ∧
  TwoInARowEnv.calls (TwoInARowEnv.q_values predict tabulate w).2 =
    TwoInARowEnv.calls w ++ TwoInARowEnv.inputs.
Proof.
  unfold TwoInARowEnv.q_values, TwoInARowEnv.inputs. simpl TwoInARowEnv.ask.
  destruct (predict [[0]; [0]] (TwoInARowEnv.model w)) as [p0 m0] eqn:E0.
  destruct (predict [[1]; [1]] m0) as [p1 m1] eqn:E1.
  destruct (predict [[0]; [1]] m1) as [p2 m2] eqn:E2.
  destruct (predict [[1]; [0]] m2) as [p3 m3] eqn:E3.
  unfold mbind, M_bind, bind. simpl mapM.
  unfold mbind, M_bind, bind, TwoInARowEnv.model_predict, mret, M_ret, ret. simpl.
  rewrite E0. simpl. rewrite E1. simpl. rewrite E2. simpl. rewrite E3. simpl.
  intros Hin. rewrite !elem_of_cons, elem_of_nil in Hin.
  split.
  - assert (getitem p0 0 = inl IndexError ∨ getitem p1 0 = inl IndexError ∨
            getitem p2 0 = inl IndexError ∨ getitem p3 0 = inl IndexError) as Hraise.
    { destruct Hin as [<-|[<-|[<-|[<-|[]]]]]; rewrite getitem_nil; auto. }
    destruct (getitem p0 0) as [e0|] eqn:G0, (getitem p1 0) as [e1|] eqn:G1,
      (getitem p2 0) as [e2|] eqn:G2, (getitem p3 0) as [e3|] eqn:G3;
      try apply getitem_inl in G0; try apply getitem_inl in G1;
      try apply getitem_inl in G2; try apply getitem_inl in G3;
      simpl; destruct Hraise as [?|[?|[?|?]]]; simplify_eq; done.
  - destruct (getitem p0 0), (getitem p1 0), (getitem p2 0), (getitem p3 0);
      simpl; by rewrite <- !app_assoc.
Qed.

(** A model whose third prediction is empty. *)
Lemma q_values_empty_prediction_witness :
  (TwoInARowEnv.q_values
     (λ (_ : list (list Z)) (m : nat),
        (if bool_decide (m = 2%nat) then [] else [[Z.of_nat m; 7]], S m))
     (λ _ _, EmptyString)
     (TwoInARowEnv.mkWorld (init 100) 0%nat [])).1 = inl IndexError ∧
  TwoInARowEnv.calls
    (TwoInARowEnv.q_values
       (λ (_ : list (list Z)) (m : nat),
          (if bool_decide (m = 2%nat) then [] else [[Z.of_nat m; 7]], S m))
       (λ _ _, EmptyString)
       (TwoInARowEnv.mkWorld (init 100) 0%nat [])).2 =
    [] ++ TwoInARowEnv.inputs.
Proof.
  apply (q_values_empty_prediction
    (λ (_ : list (list Z)) (m : nat),
       (if bool_decide (m = 2%nat) then [] else [[Z.of_nat m; 7]], S m))
    (λ _ _, EmptyString)
    (TwoInARowEnv.mkWorld (init 100) 0%nat [])).
  apply (list_elem_of_lookup_2 _ 2%nat). reflexivity.
Defined.

(** *** The size of a record *)

Lemma run_bounds v (cs : list (call v)) s :
  0 ≤ curr_step s ≤ max_steps_per_episode s →
  0 ≤ curr_step (run cs s) ≤ max_steps_per_episode s.
Proof.
  revert s. induction cs as [|c cs IH]; intros s Hs; [done|].
  simpl. destruct (do_call_bounds v c s) as [Hm Hb]; [lia..|].
  rewrite <- Hm. apply IH. lia.
Qed.

(** X13: a record is bounded by the limit: on either variant, with
    [max_steps_per_episode >= 0], at any point after a [reset] the active
    record holds at most [max_steps_per_episode] actions and at most one
    observation more; only the number of records grows without bound. *)
Theorem record_bounded_by_limit v (max_steps : Z) (cs0 : list (call v)) (r : rand v)
    (cs : list (call v)) :
  0 ≤ max_steps →
  ∃ acts obss,
    active_actions (run cs (env_reset v r (run cs0 (init max_steps))).2) = inr acts ∧
    active_obs (run cs (env_reset v r (run cs0 (init max_steps))).2) = inr obss ∧
    Z.of_nat (length acts) ≤ max_steps ∧
    Z.of_nat (length obss) ≤ max_steps + 1.
Proof.
  intros Hmax.
  destruct (reset_then_run_started v max_steps cs0 r cs)
    as (_ & acts & obss & Ha & Ho & Hla & Hlo & _).
  exists acts, obss. split; [done|]. split; [done|].
  pose proof (run_bounds v cs (env_reset v r (run cs0 (init max_steps))).2) as Hb.
  destruct (env_reset_returns v r (run cs0 (init max_steps))) as (o & _ & Heq).
  pose proof (run_max_steps v cs0 (init max_steps)) as Hm0. simpl in Hm0.
  rewrite Heq in *. simpl in *. rewrite Hm0 in *.
  specialize (Hb ltac:(lia)). lia.
Qed.

Lemma record_bounded_by_limit_witness :
  ∃ acts obss,
    active_actions
      (run [@CallStep GreaterThanZero 0 (4 # 7)%Q; @CallStep GreaterThanZero 9 (1 # 9)%Q]
         (env_reset GreaterThanZero (3 # 4)%Q (run two_episodes (init 3))).2) = inr acts ∧
    active_obs
      (run [@CallStep GreaterThanZero 0 (4 # 7)%Q; @CallStep GreaterThanZero 9 (1 # 9)%Q]
         (env_reset GreaterThanZero (3 # 4)%Q (run two_episodes (init 3))).2) = inr obss ∧
    Z.of_nat (length acts) ≤ 3 ∧
    Z.of_nat (length obss) ≤ 3 + 1.
Proof.
  apply (record_bounded_by_limit GreaterThanZero 3 two_episodes (3 # 4)%Q
    [@CallStep GreaterThanZero 0 (4 # 7)%Q; @CallStep GreaterThanZero 9 (1 # 9)%Q]).
  lia.
Defined.
